(** * hgb.c: the [ran2] deviate generator and the start-up checks of [problem]

    A shallow embedding of the parts of [src/prob/hgb.c] that the
    specification talks about, and the theorems that relate the two.

    - [long int] values are mathematical integers ([Z]).  C arithmetic on
      [long] agrees with [Z] arithmetic as long as every value is
      representable; [in_long] is the range every conforming C implementation
      gives to [long int], [in_long64] the seeds of a 64-bit [long] (LP64)
      that the initialisation can negate.  C's [/] on integers truncates
      towards zero ([Z.quot]).
    - [double] values are IEEE-754 binary64 numbers, [spec_float] with
      [prec = 53] and [emax = 1024], rounded to nearest even.
    - the shuffle table [iv] is a list updated by index; an access outside
      [0 .. NTAB-1] has no defined behaviour in C and makes the model return
      [None]. *)

From Stdlib Require Import ZArith Bool Lia List String.
From Stdlib Require Import Floats.SpecFloat.
From stdpp Require Import base option list.

Open Scope Z_scope.

(** ** Machine numbers *)

Definition LONG_MAX_min : Z := 2147483647.

(** The range of [long int] on every conforming implementation. *)
Definition in_long (z : Z) : Prop := - LONG_MAX_min <= z <= LONG_MAX_min.

(** The values of a 64-bit [long int] that can be negated, that is all of
    them but [LONG_MIN]. *)
Definition in_long64 (z : Z) : Prop := - (2 ^ 63 - 1) <= z <= 2 ^ 63 - 1.

(** The conversion [(int) z] of a [long] to a 32-bit [int]: the identity on
    the range of [int], wrap-around outside of it. *)
Definition int_of_long (z : Z) : Z := (z + 2 ^ 31) mod 2 ^ 32 - 2 ^ 31.

Definition prec : Z := 53.
Definition emax : Z := 1024.

Definition double : Type := spec_float.

(** Conversion of an integer to [double]. *)
Definition double_of_long (z : Z) : double := binary_normalize prec emax z 0 false.

Definition dmul : double -> double -> double := SFmul prec emax.
Definition ddiv : double -> double -> double := SFdiv prec emax.
Definition dsub : double -> double -> double := SFsub prec emax.
Definition dopp : double -> double := SFopp.
Definition dlt : double -> double -> bool := SFltb.
Definition dle : double -> double -> bool := SFleb.
Definition deq : double -> double -> bool := SFeqb.

Definition d_zero : double := S754_zero false.
Definition d_one : double := double_of_long 1.

(** [DBL_EPSILON] of <float.h> for binary64: 2^-52. *)
Definition DBL_EPSILON : double := binary_normalize prec emax 1 (-52) false.

(** ** The generator *)

Module Ran2.

Definition IM1 : Z := 2147483563.
Definition IM2 : Z := 2147483399.
Definition AM : double := ddiv d_one (double_of_long IM1).
Definition IMM1 : Z := IM1 - 1.
Definition IA1 : Z := 40014.
Definition IA2 : Z := 40692.
Definition IQ1 : Z := 53668.
Definition IQ2 : Z := 52774.
Definition IR1 : Z := 12211.
Definition IR2 : Z := 3791.
Definition NTAB : Z := 32.
Definition NDIV : Z := 1 + IMM1 ÷ NTAB.
Definition RNMX : double := dsub d_one DBL_EPSILON.

(** The generator state: [idum] is the caller's [long] behind the pointer
    argument, [idum2], [iy] and [iv] are the function's statics. *)
Record state : Type := mkState {
  idum : Z;
  idum2 : Z;
  iy : Z;
  iv : list Z
}.

(** The statics at program start ([iv] is zero-initialised), with the
    caller's seed. *)
Definition boot (seed : Z) : state :=
  {| idum := seed; idum2 := 123456789; iy := 0; iv := replicate (Z.to_nat NTAB) 0 |}.

(** [k=idum/IQ1; idum=IA1*(idum-k*IQ1)-k*IR1; if (idum < 0) idum += IM1;] *)
Definition advance1 (idum : Z) : Z :=
  let k := idum ÷ IQ1 in
  let idum := IA1 * (idum - k * IQ1) - k * IR1 in
  if idum <? 0 then idum + IM1 else idum.

(** [k=idum2/IQ2; idum2=IA2*(idum2-k*IQ2)-k*IR2; if (idum2 < 0) idum2 += IM2;] *)
Definition advance2 (idum2 : Z) : Z :=
  let k := idum2 ÷ IQ2 in
  let idum2 := IA2 * (idum2 - k * IQ2) - k * IR2 in
  if idum2 <? 0 then idum2 + IM2 else idum2.

(** Every value the primary update computes, in evaluation order. *)
Definition advance1_values (idum : Z) : list Z :=
  let k := idum ÷ IQ1 in
  let idum' := IA1 * (idum - k * IQ1) - k * IR1 in
  [k; k * IQ1; idum - k * IQ1; IA1 * (idum - k * IQ1); k * IR1; idum';
   advance1 idum].

(** Every value the secondary update computes, in evaluation order. *)
Definition advance2_values (idum2 : Z) : list Z :=
  let k := idum2 ÷ IQ2 in
  let idum2' := IA2 * (idum2 - k * IQ2) - k * IR2 in
  [k; k * IQ2; idum2 - k * IQ2; IA2 * (idum2 - k * IQ2); k * IR2; idum2';
   advance2 idum2].

(** The seed as the initialisation leaves it before the warm-up:
    [if (-( *idum) < 1) *idum=1; else *idum = -( *idum);] *)
Definition normalize_seed (idum : Z) : Z :=
  if - idum <? 1 then 1 else - idum.

(** The loop [for (j=NTAB+7;j>=0;j--)]: [load_table n] runs the iterations
    [j = n-1, ..., 0]. *)
Fixpoint load_table (n : nat) (idum : Z) (iv : list Z) : Z * list Z :=
  match n with
  | O => (idum, iv)
  | S j =>
      let idum := advance1 idum in
      let iv := if Z.of_nat j <? NTAB then <[j := idum]> iv else iv in
      load_table j idum iv
  end.

(** The block under [if ( *idum <= 0)]. *)
Definition initialize (st : state) : state :=
  let idum := normalize_seed (idum st) in
  let idum2 := idum in
  let '(idum, iv) := load_table (Z.to_nat (NTAB + 7) + 1) idum (iv st) in
  {| idum := idum; idum2 := idum2; iy := nth 0 iv 0; iv := iv |}.

(** [if ((temp=AM*iy) > RNMX) return RNMX; else return temp;] *)
Definition scale (iy : Z) : double :=
  let temp := dmul AM (double_of_long iy) in
  if dlt RNMX temp then RNMX else temp.

(** The part of [ran2] after the initialisation block. *)
Definition steady (st : state) : option (double * state) :=
  let idum := advance1 (idum st) in
  let idum2 := advance2 (idum2 st) in
  let j := int_of_long (iy st ÷ NDIV) in
  if (0 <=? j) && (j <? NTAB) then
    match iv st !! Z.to_nat j with
    | Some ivj =>
        let iy := ivj - idum2 in
        let iv := <[Z.to_nat j := idum]> (iv st) in
        let iy := if iy <? 1 then iy + IMM1 else iy in
        Some (scale iy, {| idum := idum; idum2 := idum2; iy := iy; iv := iv |})
    | None => None
    end
  else None.

Definition ran2 (st : state) : option (double * state) :=
  steady (if idum st <=? 0 then initialize st else st).

(** [draws n st]: the results of [n] successive calls and the state they
    leave; [None] as soon as one call has no defined result. *)
Fixpoint draws (n : nat) (st : state) : option (list double * state) :=
  match n with
  | O => Some ([], st)
  | S n =>
      match ran2 st with
      | Some (v, st') =>
          match draws n st' with
          | Some (vs, st'') => Some (v :: vs, st'')
          | None => None
          end
      | None => None
      end
  end.

End Ran2.

Import Ran2.

(** ** Schrage's update *)

Section Schrage.

Lemma quot_rem_nonneg (x q : Z) :
  0 <= x -> 0 < q ->
  exists r, x = q * (x ÷ q) + r /\ 0 <= r < q /\ 0 <= x ÷ q.
Proof.
  intros Hx Hq. rewrite Z.quot_div_nonneg by lia.
  exists (x mod q). split; [apply Z.div_mod; lia|].
  split; [apply Z.mod_pos_bound; lia|apply Z.div_pos; lia].
Qed.

Lemma advance1_mod (x : Z) :
  0 <= x <= LONG_MAX_min -> advance1 x = (IA1 * x) mod IM1.
Proof.
  intros Hx. unfold advance1.
  destruct (quot_rem_nonneg x IQ1) as (r & Hr & Hb & Hk); [lia|reflexivity|].
  set (k := x ÷ IQ1) in *. clearbody k.
  unfold IA1, IQ1, IR1, IM1, LONG_MAX_min in *.
  destruct (Z.ltb_spec (40014 * (x - k * 53668) - k * 12211) 0).
  - apply Z.mod_unique with (q := k - 1); lia.
  - apply Z.mod_unique with (q := k); lia.
Qed.

Lemma advance2_mod (x : Z) :
  0 <= x <= LONG_MAX_min -> advance2 x = (IA2 * x) mod IM2.
Proof.
  intros Hx. unfold advance2.
  destruct (quot_rem_nonneg x IQ2) as (r & Hr & Hb & Hk); [lia|reflexivity|].
  set (k := x ÷ IQ2) in *. clearbody k.
  unfold IA2, IQ2, IR2, IM2, LONG_MAX_min in *.
  destruct (Z.ltb_spec (40692 * (x - k * 52774) - k * 3791) 0).
  - apply Z.mod_unique with (q := k - 1); lia.
  - apply Z.mod_unique with (q := k); lia.
Qed.

Lemma advance1_values_in_long (x : Z) :
  0 <= x <= LONG_MAX_min -> Forall in_long (advance1_values x).
Proof.
  intros Hx.
  pose proof (advance1_mod x Hx) as Hm.
  pose proof (Z.mod_pos_bound (IA1 * x) IM1 eq_refl) as Hbd.
  unfold advance1_values. rewrite Hm. clear Hm.
  destruct (quot_rem_nonneg x IQ1) as (r & Hr & Hb & Hk); [lia|reflexivity|].
  set (k := x ÷ IQ1) in *. clearbody k.
  unfold in_long, IA1, IQ1, IR1, IM1, LONG_MAX_min in *.
  repeat constructor; lia.
Qed.

Lemma advance2_values_in_long (x : Z) :
  0 <= x <= LONG_MAX_min -> Forall in_long (advance2_values x).
Proof.
  intros Hx.
  pose proof (advance2_mod x Hx) as Hm.
  pose proof (Z.mod_pos_bound (IA2 * x) IM2 eq_refl) as Hbd.
  unfold advance2_values. rewrite Hm. clear Hm.
  destruct (quot_rem_nonneg x IQ2) as (r & Hr & Hb & Hk); [lia|reflexivity|].
  set (k := x ÷ IQ2) in *. clearbody k.
  unfold in_long, IA2, IQ2, IR2, IM2, LONG_MAX_min in *.
  repeat constructor; lia.
Qed.

End Schrage.

(** C1. In the steady-state step, for a primary state in [1, 2147483562] the
    Schrage update leaves (40014 * idum) mod 2147483563, for a secondary
    state in [1, 2147483398] it leaves (40692 * idum2) mod 2147483399, and
    every value computed on the way lies in the range of [long int]. *)
Theorem schrage_steady_step (idum_old idum2_old : Z) :
  1 <= idum_old <= 2147483562 ->
  1 <= idum2_old <= 2147483398 ->
  advance1 idum_old = (40014 * idum_old) mod 2147483563 /\
  advance2 idum2_old = (40692 * idum2_old) mod 2147483399 /\
  Forall in_long (advance1_values idum_old) /\
  Forall in_long (advance2_values idum2_old).
Proof.
  intros H1 H2.
  split; [apply advance1_mod; unfold LONG_MAX_min; lia|].
  split; [apply advance2_mod; unfold LONG_MAX_min; lia|].
  split; [apply advance1_values_in_long|apply advance2_values_in_long];
    unfold LONG_MAX_min; lia.
Qed.

Lemma schrage_steady_step_witness :
  advance1 1 = (40014 * 1) mod 2147483563 /\
  advance2 1 = (40692 * 1) mod 2147483399 /\
  Forall in_long (advance1_values 1) /\
  Forall in_long (advance2_values 1).
Proof. apply (schrage_steady_step 1 1); lia. Defined.

(** ** The initialisation block *)

(** The [n]-th term of the primary recurrence started at [x0]. *)
Definition warmup (x0 : Z) (n : nat) : Z := Nat.iter n advance1 x0.

(** The seed magnitude the initialisation starts from, in the words of the
    specification: the magnitude of the seed, 1 when that magnitude is 0. *)
Definition seed_magnitude (seed : Z) : Z :=
  if Z.abs seed =? 0 then 1 else Z.abs seed.

(** The shuffle table after a warm-up from [x0]: slot [j] holds term
    [40 - j], so slot 31 is filled first (term 9) and slot 0 last (term 40). *)
Definition warm_table (x0 : Z) : list Z :=
  map (fun j => warmup x0 (40 - j)) (seq 0 32).

Section Initialisation.

Lemma warmup_S (x0 : Z) (n : nat) : warmup x0 (S n) = warmup (advance1 x0) n.
Proof. unfold warmup. apply Nat.iter_succ_r. Qed.

Lemma warmup_succ (x0 : Z) (n : nat) :
  warmup x0 (S n) = advance1 (warmup x0 n).
Proof. reflexivity. Qed.

Lemma load_table_fst (n : nat) : forall (x : Z) (t : list Z),
  (load_table n x t).1 = warmup x n.
Proof.
  induction n as [|j IH]; intros x t; [reflexivity|].
  cbn [load_table]. rewrite IH. symmetry. apply warmup_S.
Qed.

Lemma load_table_length (n : nat) : forall (x : Z) (t : list Z),
  length (load_table n x t).2 = length t.
Proof.
  induction n as [|j IH]; intros x t; [reflexivity|].
  cbn [load_table]. rewrite IH.
  destruct (Z.of_nat j <? NTAB); [apply length_insert|reflexivity].
Qed.

Lemma load_table_lookup (n : nat) : forall (x : Z) (t : list Z) (i : nat),
  (load_table n x t).2 !! i =
  if decide (i < n /\ i < 32 /\ i < length t)%nat
  then Some (warmup x (n - i)) else t !! i.
Proof.
  induction n as [|j IH]; intros x t i.
  - cbn [load_table snd]. destruct (decide _) as [H|H]; [lia|reflexivity].
  - cbn [load_table]. rewrite IH.
    assert (Hlen : length (if Z.of_nat j <? NTAB then <[j:=advance1 x]> t else t)
                   = length t).
    { destruct (Z.of_nat j <? NTAB); [apply length_insert|reflexivity]. }
    rewrite Hlen.
    destruct (decide (i < j /\ i < 32 /\ i < length t)%nat) as [H|H].
    + rewrite decide_True by lia.
      replace (S j - i)%nat with (S (j - i)) by lia.
      now rewrite warmup_S.
    + destruct (Z.ltb_spec (Z.of_nat j) NTAB) as [Hj|Hj]; unfold NTAB in Hj.
      * destruct (decide (i = j)) as [->|Hne].
        -- destruct (decide (j < length t)%nat) as [Hl|Hl].
           ++ rewrite list_lookup_insert_eq by lia.
              rewrite decide_True by lia.
              now replace (S j - j)%nat with 1%nat by lia.
           ++ rewrite decide_False by lia.
              rewrite !lookup_ge_None_2; [reflexivity|lia|rewrite length_insert; lia].
        -- rewrite list_lookup_insert_ne by lia.
           rewrite decide_False by lia. reflexivity.
      * rewrite decide_False by lia. reflexivity.
Qed.

Lemma load_table_all (x : Z) (t : list Z) :
  length t = 32%nat -> load_table 40 x t = (warmup x 40, warm_table x).
Proof.
  intros Hlen.
  rewrite (surjective_pairing (load_table 40 x t)).
  rewrite load_table_fst. f_equal.
  apply list_eq. intros i. rewrite load_table_lookup. unfold warm_table.
  rewrite list_lookup_fmap.
  destruct (decide (i < 40 /\ i < 32 /\ i < length t)%nat) as [H|H].
  - rewrite lookup_seq_lt by lia. reflexivity.
  - rewrite lookup_seq_ge by lia.
    rewrite lookup_ge_None_2 by lia. reflexivity.
Qed.

Lemma normalize_seed_magnitude (seed : Z) :
  seed <= 0 -> normalize_seed seed = seed_magnitude seed.
Proof.
  intros H. unfold normalize_seed, seed_magnitude.
  destruct (Z.ltb_spec (- seed) 1), (Z.eqb_spec (Z.abs seed) 0); lia.
Qed.

Lemma initialize_eq (st : state) :
  length (iv st) = 32%nat ->
  initialize st =
  let x0 := normalize_seed (idum st) in
  {| idum := warmup x0 40; idum2 := x0; iy := warmup x0 40; iv := warm_table x0 |}.
Proof.
  intros Hlen. unfold initialize.
  change (Z.to_nat (NTAB + 7) + 1)%nat with 40%nat.
  rewrite load_table_all by exact Hlen. reflexivity.
Qed.

End Initialisation.


(** ** Ranges of the integer state *)

(** What a first call needs of the seed and the statics: the seed lies in the
    range of [long int], the table has its 32 entries, and the statics are
    either untouched or left by earlier calls. *)
Record usable (st : state) : Prop := mkUsable {
  usable_idum : in_long (idum st);
  usable_idum2 : 0 <= idum2 st <= LONG_MAX_min;
  usable_iy : 0 <= iy st <= IMM1;
  usable_len : length (iv st) = 32%nat;
  usable_iv : Forall (fun x => 0 <= x <= IMM1) (iv st)
}.

(** The steady-state invariant: both recurrences are on a non-zero residue
    and the selector and the table entries are outputs of the generator. *)
Record steady_inv (st : state) : Prop := mkSteadyInv {
  inv_idum : 1 <= idum st <= 2147483562;
  inv_idum2 : 1 <= idum2 st <= 2147483398;
  inv_iy : 1 <= iy st <= 2147483562;
  inv_len : length (iv st) = 32%nat;
  inv_iv : Forall (fun x => 1 <= x <= 2147483562) (iv st)
}.

(** [reaches st st']: some number of successive calls lead from [st] to
    [st']. *)
Inductive reaches (st : state) : state -> Prop :=
  | reaches_refl : reaches st st
  | reaches_step (st' : state) (v : double) (st'' : state) :
      reaches st st' -> ran2 st' = Some (v, st'') -> reaches st st''.

Section Ranges.

Lemma unit_mod_nonzero (a b m t x : Z) :
  0 < m -> a * b = 1 + m * t -> (a * x) mod m = 0 -> x mod m = 0.
Proof.
  intros Hm Hab H.
  apply Z.mod_divide in H; [|lia]. destruct H as [q Hq].
  apply Z.mod_divide; [lia|]. exists (b * q - t * x).
  replace x with (a * b * x - m * t * x) at 1 by (rewrite Hab; ring).
  replace (a * b * x) with (b * (a * x)) by ring. rewrite Hq. ring.
Qed.

Lemma advance1_range (x : Z) :
  0 <= x <= LONG_MAX_min -> 0 <= advance1 x <= IM1 - 1.
Proof.
  intros Hx. rewrite advance1_mod by exact Hx.
  pose proof (Z.mod_pos_bound (IA1 * x) IM1 eq_refl). lia.
Qed.

Lemma advance2_range (x : Z) :
  0 <= x <= LONG_MAX_min -> 0 <= advance2 x <= IM2 - 1.
Proof.
  intros Hx. rewrite advance2_mod by exact Hx.
  pose proof (Z.mod_pos_bound (IA2 * x) IM2 eq_refl). lia.
Qed.

Lemma advance1_nonzero (x : Z) :
  0 <= x <= LONG_MAX_min -> x mod IM1 <> 0 -> 1 <= advance1 x <= IM1 - 1.
Proof.
  intros Hx Hnz. pose proof (advance1_range x Hx) as Hr.
  enough (advance1 x <> 0) by lia. rewrite advance1_mod by exact Hx.
  intros H. apply Hnz.
  apply (unit_mod_nonzero IA1 2082061899 IM1 38795); [reflexivity..|exact H].
Qed.

Lemma advance2_nonzero (x : Z) :
  0 <= x <= LONG_MAX_min -> x mod IM2 <> 0 -> 1 <= advance2 x <= IM2 - 1.
Proof.
  intros Hx Hnz. pose proof (advance2_range x Hx) as Hr.
  enough (advance2 x <> 0) by lia. rewrite advance2_mod by exact Hx.
  intros H. apply Hnz.
  apply (unit_mod_nonzero IA2 1481316021 IM2 28069); [reflexivity..|exact H].
Qed.

Lemma warmup_range (x0 : Z) (n : nat) :
  0 <= x0 <= LONG_MAX_min -> 0 <= warmup x0 (S n) <= IM1 - 1.
Proof.
  intros Hx. induction n as [|n IH].
  - apply advance1_range, Hx.
  - rewrite warmup_succ.
    apply advance1_range. unfold IM1, LONG_MAX_min in *. lia.
Qed.

Lemma warmup_nonzero (x0 : Z) (n : nat) :
  0 <= x0 <= LONG_MAX_min -> x0 mod IM1 <> 0 ->
  1 <= warmup x0 (S n) <= IM1 - 1.
Proof.
  intros Hx Hnz. induction n as [|n IH].
  - apply advance1_nonzero; assumption.
  - rewrite warmup_succ.
    apply advance1_nonzero.
    + unfold IM1, LONG_MAX_min in *. lia.
    + rewrite Z.mod_small by lia. lia.
Qed.

Lemma warm_table_Forall (P : Z -> Prop) (x0 : Z) :
  (forall n : nat, P (warmup x0 (S n))) -> Forall P (warm_table x0).
Proof.
  intros HP. unfold warm_table. apply Forall_fmap, Forall_forall.
  intros j Hj. apply elem_of_seq in Hj. unfold compose.
  replace (40 - j)%nat with (S (39 - j)) by lia. apply HP.
Qed.

Lemma normalize_seed_range (seed : Z) :
  in_long seed -> seed <= 0 -> 1 <= normalize_seed seed <= LONG_MAX_min.
Proof.
  unfold in_long, normalize_seed. intros H Hle.
  destruct (Z.ltb_spec (- seed) 1); unfold LONG_MAX_min in *; lia.
Qed.

Lemma selector_in_table (y : Z) :
  0 <= y <= IMM1 ->
  0 <= y ÷ NDIV <= 31 /\ int_of_long (y ÷ NDIV) = y ÷ NDIV.
Proof.
  intros Hy. change NDIV with 67108862. unfold IMM1, IM1 in Hy.
  destruct (quot_rem_nonneg y 67108862) as (r & Hr & Hb & Hk); [lia..|].
  assert (Hj : 0 <= y ÷ 67108862 <= 31) by lia.
  split; [exact Hj|]. unfold int_of_long.
  rewrite Z.mod_small; lia.
Qed.

(** The steady-state step written out, for a selector inside the table. *)
Lemma steady_eq (st : state) :
  0 <= iy st <= IMM1 -> length (iv st) = 32%nat ->
  exists ivj : Z,
    iv st !! Z.to_nat (iy st ÷ NDIV) = Some ivj /\
    steady st =
    let y := ivj - advance2 (idum2 st) in
    let y := if y <? 1 then y + IMM1 else y in
    Some (scale y,
          {| idum := advance1 (idum st); idum2 := advance2 (idum2 st); iy := y;
             iv := <[Z.to_nat (iy st ÷ NDIV) := advance1 (idum st)]> (iv st) |}).
Proof.
  intros Hy Hlen. destruct (selector_in_table _ Hy) as [Hj Hint].
  destruct (lookup_lt_is_Some_2 (iv st) (Z.to_nat (iy st ÷ NDIV))) as [ivj Hivj];
    [lia|].
  exists ivj. split; [exact Hivj|].
  unfold steady. rewrite Hint.
  replace ((0 <=? iy st ÷ NDIV) && (iy st ÷ NDIV <? NTAB)) with true
    by (symmetry; apply andb_true_iff; unfold NTAB; lia).
  rewrite Hivj. reflexivity.
Qed.

Lemma combine_range (ivj s2 : Z) :
  0 <= ivj <= IMM1 -> 0 <= s2 <= IM2 - 1 ->
  1 <= (if ivj - s2 <? 1 then ivj - s2 + IMM1 else ivj - s2) <= IMM1.
Proof.
  unfold IMM1, IM1, IM2. intros H1 H2.
  destruct (Z.ltb_spec (ivj - s2) 1); lia.
Qed.

(** States on which the steady-state step is about to run. *)
Lemma after_init_usable (st : state) :
  usable st ->
  let st1 := if idum st <=? 0 then initialize st else st in
  usable st1 /\ 0 <= idum st1.
Proof.
  intros [Hs H2 Hy Hlen Hiv]. cbv zeta.
  destruct (Z.leb_spec (idum st) 0) as [Hle|Hgt].
  - rewrite initialize_eq by exact Hlen. cbv zeta.
    pose proof (normalize_seed_range _ Hs Hle) as Hn.
    assert (Hw : forall n, 0 <= warmup (normalize_seed (idum st)) (S n) <= IMM1).
    { intros n. apply warmup_range. lia. }
    split; [split; cbn [idum idum2 iy iv]|cbn [idum]; apply (Hw 39%nat)].
    + pose proof (Hw 39%nat). unfold in_long, IMM1, IM1, LONG_MAX_min in *. lia.
    + lia.
    + apply (Hw 39%nat).
    + reflexivity.
    + apply warm_table_Forall. exact Hw.
  - split; [split; assumption|lia].
Qed.

(** One call from a usable state: it returns, and leaves a usable state with
    a selector of at least 1. *)
Lemma ran2_usable (st : state) :
  usable st ->
  exists st' : state,
    ran2 st = Some (scale (iy st'), st') /\ usable st' /\ 1 <= iy st'.
Proof.
  intros Hu. destruct (after_init_usable st Hu) as [[Hs H2 Hy Hlen Hiv] Hpos].
  unfold ran2. set (st1 := if idum st <=? 0 then initialize st else st) in *.
  clearbody st1. clear Hu st.
  destruct (steady_eq st1 Hy Hlen) as (ivj & Hivj & Heq).
  assert (Hivj' : 0 <= ivj <= IMM1).
  { rewrite Forall_lookup in Hiv. exact (Hiv _ _ Hivj). }
  assert (H1 : 0 <= advance1 (idum st1) <= IM1 - 1).
  { apply advance1_range. unfold in_long in Hs. lia. }
  pose proof (advance2_range _ H2) as H2'.
  pose proof (combine_range ivj _ Hivj' H2') as Hc.
  rewrite Heq. cbv zeta.
  match goal with |- exists st', Some (_, ?s) = _ /\ _ => exists s end.
  split; [reflexivity|].
  split; [split; cbn [idum idum2 iy iv]|cbn [iy]; lia].
  - unfold in_long, IM1, LONG_MAX_min in *. lia.
  - unfold IM2, LONG_MAX_min in *. lia.
  - lia.
  - rewrite length_insert. exact Hlen.
  - apply Forall_insert; [exact Hiv|]. unfold IMM1. lia.
Qed.

Lemma boot_usable (seed : Z) : in_long seed -> usable (boot seed).
Proof.
  intros Hs. split; cbn [boot idum idum2 iy iv].
  - exact Hs.
  - unfold LONG_MAX_min. lia.
  - unfold IMM1, IM1. lia.
  - reflexivity.
  - apply Forall_replicate. unfold IMM1, IM1. lia.
Qed.

Lemma reaches_usable (st st' : state) :
  usable st -> reaches st st' -> usable st'.
Proof.
  intros Hu Hr. induction Hr as [|st' v st'' Hr IH Hcall]; [exact Hu|].
  destruct (ran2_usable st' IH) as (st2 & Heq & Hu2 & _).
  rewrite Heq in Hcall. now inversion Hcall; subst.
Qed.

End Ranges.

(** ** The scaling to [double] *)

Section Scaling.

Lemma AM_eq : AM = S754_finite false 4503599805628423 (-83).
Proof. vm_compute. reflexivity. Qed.

Lemma RNMX_eq : RNMX = S754_finite false 9007199254740990 (-53).
Proof. vm_compute. reflexivity. Qed.

Lemma d_one_eq : d_one = S754_finite false 4503599627370496 (-52).
Proof. vm_compute. reflexivity. Qed.

Lemma digits2_pos_bound (p : positive) :
  2 ^ (Z.pos (digits2_pos p) - 1) <= Z.pos p.
Proof.
  induction p as [p IH|p IH|]; cbn [digits2_pos]; [| |reflexivity];
    rewrite Pos2Z.inj_succ;
    replace (Z.succ (Z.pos (digits2_pos p)) - 1)
      with (Z.succ (Z.pos (digits2_pos p) - 1)) by lia;
    rewrite Z.pow_succ_r by lia; lia.
Qed.

Lemma shr_1_ge (k : Z) (mrs : shr_record) :
  0 <= k -> 2 ^ (k + 1) <= shr_m mrs -> 2 ^ k <= shr_m (shr_1 mrs).
Proof.
  intros Hk. rewrite Z.pow_add_r, Z.pow_1_r by lia.
  pose proof (Z.pow_pos_nonneg 2 k eq_refl Hk) as Hp.
  destruct mrs as [m r s]. destruct m as [|[p|p|]|[p|p|]]; cbn; lia.
Qed.

Lemma iter_pos_shr_ge (n : positive) : forall (k : Z) (mrs : shr_record),
  0 <= k -> 2 ^ (k + Z.pos n) <= shr_m mrs ->
  2 ^ k <= shr_m (SpecFloat.iter_pos shr_1 n mrs).
Proof.
  induction n as [n IH|n IH|]; intros k mrs Hk H; cbn [SpecFloat.iter_pos].
  - apply IH; [lia|]. apply IH; [lia|]. apply shr_1_ge; [lia|].
    replace (k + Z.pos n + Z.pos n + 1) with (k + Z.pos n~1) by lia. exact H.
  - apply IH; [lia|]. apply IH; [lia|].
    replace (k + Z.pos n + Z.pos n) with (k + Z.pos n~0) by lia. exact H.
  - apply shr_1_ge; assumption.
Qed.

Lemma shr_record_of_loc_m (m : Z) (l : location) :
  shr_m (shr_record_of_loc m l) = m.
Proof. destruct l as [|[]]; reflexivity. Qed.

(** Above the underflow threshold the shift to the target exponent keeps a
    positive mantissa positive and never lowers the exponent. *)
Lemma shr_fexp_pos (m e : Z) (l : location) :
  0 < m -> -1074 - e < Zdigits2 m ->
  0 < shr_m (shr_fexp prec emax m e l).1 /\
  e <= (shr_fexp prec emax m e l).2 /\ -1074 <= (shr_fexp prec emax m e l).2.
Proof.
  intros Hm Hd. destruct m as [|p|p]; [lia| |lia].
  unfold shr_fexp, shr, fexp, SpecFloat.emin, prec, emax in *.
  cbn [Zdigits2] in *.
  pose proof (digits2_pos_bound p) as Hb.
  set (d := Z.pos (digits2_pos p)) in *.
  destruct (Z.max (d + e - 53) (3 - 1024 - 53) - e) as [|q|q] eqn:Es;
    cbn [fst snd]; rewrite ?shr_record_of_loc_m; try lia.
  split; [|lia].
  enough (2 ^ 0 <= shr_m (SpecFloat.iter_pos shr_1 q (shr_record_of_loc (Z.pos p) l)))
    by (change (2 ^ 0) with 1 in *; lia).
  apply iter_pos_shr_ge; [lia|]. rewrite shr_record_of_loc_m.
  etransitivity; [|exact Hb]. apply Z.pow_le_mono_r; lia.
Qed.

Lemma round_nearest_even_ge (m : Z) (l : location) :
  m <= round_nearest_even m l.
Proof. destruct l as [|[]]; cbn; try lia. destruct (Z.even m); lia. Qed.

(** Rounding a positive number above the underflow threshold gives a
    positive finite number or the positive infinity. *)
Lemma binary_round_aux_pos (sx : bool) (m e : Z) (l : location) :
  0 < m -> -1074 - e < Zdigits2 m ->
  (exists (m' : positive) (e' : Z),
      binary_round_aux prec emax sx m e l = S754_finite sx m' e' /\ e <= e') \/
  binary_round_aux prec emax sx m e l = S754_infinity sx.
Proof.
  intros Hm Hd. unfold binary_round_aux.
  pose proof (shr_fexp_pos m e l Hm Hd) as (H1 & H2 & H3).
  destruct (shr_fexp prec emax m e l) as [mrs' e'] eqn:E1. cbn [fst snd] in *.
  pose proof (round_nearest_even_ge (shr_m mrs') (loc_of_shr_record mrs')) as Hr.
  set (m1 := round_nearest_even (shr_m mrs') (loc_of_shr_record mrs')) in *.
  assert (Hd1 : -1074 - e' < Zdigits2 m1).
  { destruct m1; cbn [Zdigits2]; lia. }
  pose proof (shr_fexp_pos m1 e' loc_Exact ltac:(lia) Hd1) as (H4 & H5 & H6).
  destruct (shr_fexp prec emax m1 e' loc_Exact) as [mrs'' e''] eqn:E2.
  cbn [fst snd] in *.
  destruct (shr_m mrs'') as [|m''|m'']; [lia| |lia].
  destruct (e'' <=? emax - prec); [left|right; reflexivity].
  exists m'', e''. split; [reflexivity|lia].
Qed.

Lemma double_of_long_pos (z : Z) :
  0 < z ->
  (exists (m : positive) (e : Z),
      double_of_long z = S754_finite false m e /\ -52 <= e) \/
  double_of_long z = S754_infinity false.
Proof.
  intros Hz. destruct z as [|p|p]; [lia| |lia].
  unfold double_of_long, binary_normalize, binary_round.
  destruct (shl_align p 0 (fexp prec emax (Z.pos (digits2_pos p) + 0)))
    as [mz ez] eqn:E.
  assert (Hez : -52 <= ez).
  { unfold shl_align, fexp, SpecFloat.emin, prec, emax in E.
    destruct (Z.max (Z.pos (digits2_pos p) + 0 - 53) (3 - 1024 - 53) - 0)
      as [|q|q] eqn:Es; inversion E; subst; lia. }
  destruct (binary_round_aux_pos false (Z.pos mz) ez loc_Exact)
    as [(m & e & Hr & He)|Hr]; [lia|cbn [Zdigits2]; lia| |].
  - left. exists m, e. split; [exact Hr|lia].
  - right. exact Hr.
Qed.

(** The product [AM*iy] for a selector of at least 1. *)
Lemma dmul_AM_pos (z : Z) :
  0 < z ->
  (exists (m : positive) (e : Z),
      dmul AM (double_of_long z) = S754_finite false m e) \/
  dmul AM (double_of_long z) = S754_infinity false.
Proof.
  intros Hz. rewrite AM_eq.
  destruct (double_of_long_pos z Hz) as [(m & e & -> & He)| ->];
    [|right; reflexivity].
  unfold dmul, SFmul. cbn [xorb].
  destruct (binary_round_aux_pos false
              (Z.pos (4503599805628423 * m)) (-83 + e) loc_Exact)
    as [(m' & e' & Hr & _)|Hr]; [lia|cbn [Zdigits2]; lia| |].
  - left. exists m', e'. exact Hr.
  - right. exact Hr.
Qed.

Lemma compare_RNMX_eq (t : double) : SFcompare RNMX t = Some Eq -> t = RNMX.
Proof.
  rewrite RNMX_eq. destruct t as [s|s| |s m e]; cbn [SFcompare];
    try destruct s; try discriminate.
  destruct (Z.compare_spec (-53) e) as [He|He|He]; try discriminate.
  intros H. injection H as H. apply Pos.compare_eq in H. now subst.
Qed.

(** A selector of at least 1 is scaled to a value strictly between 0 and 1. *)
Lemma scale_range (z : Z) :
  1 <= z -> dlt d_zero (scale z) = true /\ dlt (scale z) d_one = true.
Proof.
  intros Hz. unfold scale.
  destruct (dmul_AM_pos z ltac:(lia)) as [(m & e & ->)| ->];
    [|split; vm_compute; reflexivity].
  rewrite RNMX_eq, d_one_eq. unfold dlt, SFltb, d_zero. cbn [SFcompare].
  destruct (Z.compare_spec (-53) e) as [He|He|He].
  - subst e.
    destruct (Pos.compare_cont Eq 9007199254740990 m); split; reflexivity.
  - split; reflexivity.
  - cbn [SFcompare]. split; [reflexivity|].
    assert (Hc : (e ?= -52) = Lt) by (apply Z.compare_lt_iff; lia).
    now rewrite Hc.
Qed.

End Scaling.

(** C4. The value returned is [RNMX] whenever the scaled value [AM*iy] equals
    or exceeds [RNMX = 1 - DBL_EPSILON], and [AM*iy] itself otherwise; it
    never exceeds [RNMX]. *)
Theorem scale_clamp (y : Z) :
  let temp := dmul AM (double_of_long y) in
  (dle RNMX temp = true -> scale y = RNMX) /\
  (dle RNMX temp = false -> scale y = temp) /\
  dlt RNMX (scale y) = false.
Proof.
  cbv zeta. unfold scale, dle, dlt, SFleb, SFltb.
  destruct (SFcompare RNMX (dmul AM (double_of_long y))) as [[| |]|] eqn:E;
    rewrite ?E; repeat split; try discriminate; try reflexivity.
  intros _. now apply compare_RNMX_eq.
Qed.

Lemma scale_clamp_witness :
  scale 2147483563 = RNMX /\
  scale 1 = dmul AM (double_of_long 1).
Proof.
  split.
  - apply (scale_clamp 2147483563). vm_compute. reflexivity.
  - apply (scale_clamp 1). vm_compute. reflexivity.
Defined.

(** ** Sequences of calls *)

(** The values returned by [n] successive calls. *)
Definition outputs (n : nat) (st : state) : option (list double) :=
  fst <$> draws n st.

(** The state the initialisation block leaves for the seed magnitude [x0]. *)
Definition initialized (x0 : Z) : state :=
  {| idum := warmup x0 40; idum2 := x0; iy := warmup x0 40; iv := warm_table x0 |}.

(** [0 < v < 1] on doubles. *)
Definition in_unit_interval (v : double) : Prop :=
  dlt d_zero v = true /\ dlt v d_one = true.

Section Sequences.

Lemma ran2_init_eq (st : state) :
  idum st <= 0 -> length (iv st) = 32%nat ->
  ran2 st = steady (initialized (normalize_seed (idum st))).
Proof.
  intros Hle Hlen. unfold ran2.
  destruct (Z.leb_spec (idum st) 0); [|lia].
  now rewrite initialize_eq.
Qed.

(** A call with a seed [<= 0] depends on the seed only, not on the statics
    it finds. *)
Lemma ran2_seed_only (st1 st2 : state) :
  idum st1 <= 0 -> idum st2 <= 0 ->
  normalize_seed (idum st1) = normalize_seed (idum st2) ->
  length (iv st1) = 32%nat -> length (iv st2) = 32%nat ->
  ran2 st1 = ran2 st2.
Proof.
  intros H1 H2 Hn L1 L2.
  rewrite (ran2_init_eq st1), (ran2_init_eq st2) by assumption.
  now rewrite Hn.
Qed.

Lemma draws_first_call (n : nat) (st1 st2 : state) :
  ran2 st1 = ran2 st2 -> draws (S n) st1 = draws (S n) st2.
Proof. intros H. cbn [draws]. now rewrite H. Qed.

Lemma outputs_first_call (n : nat) (st1 st2 : state) :
  ran2 st1 = ran2 st2 -> outputs n st1 = outputs n st2.
Proof.
  intros H. destruct n as [|n]; [reflexivity|].
  unfold outputs. now rewrite (draws_first_call n st1 st2 H).
Qed.

Lemma draws_usable (n : nat) : forall st : state,
  usable st ->
  exists (vs : list double) (st' : state),
    draws n st = Some (vs, st') /\ length vs = n /\
    Forall in_unit_interval vs /\ usable st'.
Proof.
  induction n as [|n IH]; intros st Hu.
  - exists [], st. split; [reflexivity|]. split; [reflexivity|].
    split; [apply Forall_nil_2|exact Hu].
  - destruct (ran2_usable st Hu) as (st1 & Heq & Hu1 & Hy).
    destruct (IH st1 Hu1) as (vs & st' & Hd & Hl & Hv & Hu').
    exists (scale (iy st1) :: vs), st'. cbn [draws]. rewrite Heq, Hd.
    split; [reflexivity|]. split; [cbn; now rewrite Hl|].
    split; [|exact Hu'].
    apply Forall_cons_2; [|exact Hv]. apply scale_range, Hy.
Qed.

(** With a seed [<= 0] the statics found do not matter for usability. *)
Lemma seeded_usable (st : state) :
  in_long (idum st) -> idum st <= 0 -> length (iv st) = 32%nat ->
  exists st' : state,
    ran2 st = Some (scale (iy st'), st') /\ usable st' /\ 1 <= iy st'.
Proof.
  intros Hs Hle Hlen.
  rewrite (ran2_seed_only st (boot (idum st))); try assumption; try reflexivity.
  apply ran2_usable, boot_usable, Hs.
Qed.

End Sequences.

(** X13. For a first call at program start with a seed in the range every
    C implementation gives to [long int], and after any number of further
    calls, [ran2] returns, and the value [v] it returns has [0 < v < 1]. *)
Theorem deviate_in_unit_interval (seed : Z) (st : state) :
  in_long seed -> reaches (boot seed) st ->
  exists (v : double) (st' : state),
    ran2 st = Some (v, st') /\ in_unit_interval v.
Proof.
  intros Hs Hr.
  pose proof (reaches_usable _ _ (boot_usable seed Hs) Hr) as Hu.
  destruct (ran2_usable st Hu) as (st' & Heq & _ & Hy).
  exists (scale (iy st')), st'. split; [exact Heq|].
  apply scale_range, Hy.
Qed.

Lemma deviate_in_unit_interval_witness :
  exists (v : double) (st' : state),
    ran2 (boot (-1)) = Some (v, st') /\ in_unit_interval v.
Proof.
  apply (deviate_in_unit_interval (-1) (boot (-1))).
  - unfold in_long, LONG_MAX_min. lia.
  - apply reaches_refl.
Defined.

(** Every [long] value the steady-state step computes on [st] up to the
    access to the table: the two updates, the quotient [iy/NDIV], the
    difference [iv[j]-idum2] and the selector stored. *)
Definition steady_values (st : state) : list Z :=
  let j := iy st ÷ NDIV in
  let y := nth (Z.to_nat j) (iv st) 0 - advance2 (idum2 st) in
  advance1_values (idum st) ++ advance2_values (idum2 st) ++
  [j; y; if y <? 1 then y + IMM1 else y].

(** Every [long] value a call with a seed [<= 0] computes: the magnitude, the
    40 updates of the warm-up and the steady-state step. *)
Definition seeded_call_values (seed : Z) : list Z :=
  let x0 := normalize_seed seed in
  x0 :: flat_map (fun n => advance1_values (warmup x0 n)) (seq 0 40) ++
  steady_values (initialized x0).

Definition fits_long64 (z : Z) : bool :=
  (- (2 ^ 63 - 1) <=? z) && (z <=? 2 ^ 63 - 1).

(** The run with seed -2^40 stays inside a 64-bit [long]: on it the integers
    of the model are the values the machine computes. *)
Lemma wide_seed_run_fits :
  forallb fits_long64 (seeded_call_values (- 2 ^ 40)) = true /\
  forall (v : double) (st : state),
    ran2 (boot (- 2 ^ 40)) = Some (v, st) ->
    forallb fits_long64
      (advance1_values (idum st) ++ advance2_values (idum2 st) ++
       [iy st ÷ NDIV]) = true.
Proof.
  split; [vm_compute; reflexivity|].
  intros v st H. vm_compute in H. injection H as <- <-.
  vm_compute. reflexivity.
Qed.



(** X15. Two generator states seeded with the same negative integer in the
    range every C implementation gives to [long int], whatever the statics
    they start from, return the same values call after call, for any number
    of calls: all the calls return, and each value lies strictly between 0
    and 1. *)
Theorem same_seed_same_sequence (s : Z) (st1 st2 : state) (n : nat) :
  s < 0 -> in_long s -> idum st1 = s -> idum st2 = s ->
  length (iv st1) = 32%nat -> length (iv st2) = 32%nat ->
  exists vs : list double,
    outputs n st1 = Some vs /\ outputs n st2 = Some vs /\
    length vs = n /\ Forall in_unit_interval vs.
Proof.
  intros Hs Hl H1 H2 L1 L2.
  assert (Hcall : ran2 st1 = ran2 st2).
  { apply ran2_seed_only; try assumption; try lia. now rewrite H1, H2. }
  pose proof (outputs_first_call n st1 st2 Hcall) as Hsame.
  rewrite <- Hsame.
  destruct n as [|n].
  { exists []. repeat split; try reflexivity. apply Forall_nil_2. }
  destruct (seeded_usable st1) as (st' & Heq & Hu & Hy);
    [rewrite H1; exact Hl|lia|assumption|].
  destruct (draws_usable n st' Hu) as (vs & st'' & Hd & Hlen & Hv & _).
  exists (scale (iy st') :: vs). unfold outputs. cbn [draws].
  rewrite Heq, Hd. split; [reflexivity|]. split; [reflexivity|].
  split; [cbn; now rewrite Hlen|].
  apply Forall_cons_2; [|exact Hv]. apply scale_range. exact Hy.
Qed.

Lemma same_seed_same_sequence_witness :
  exists vs : list double,
    outputs 3 (boot (-7)) = Some vs /\
    outputs 3 {| idum := -7; idum2 := 42; iy := 99; iv := replicate 32 5 |}
      = Some vs /\
    length vs = 3%nat /\ Forall in_unit_interval vs.
Proof.
  refine (same_seed_same_sequence (-7) (boot (-7))
           {| idum := -7; idum2 := 42; iy := 99; iv := replicate 32 5 |} 3
           _ _ eq_refl eq_refl eq_refl eq_refl).
  - lia.
  - unfold in_long, LONG_MAX_min. lia.
Defined.

(** C6. A stream whose first call is made with seed 0 returns, call for
    call, the values of a stream whose first call is made with seed -1: the
    initialisation starts both from magnitude 1. *)
Theorem seed_zero_as_minus_one (st1 st2 : state) (n : nat) :
  idum st1 = 0 -> idum st2 = -1 ->
  length (iv st1) = 32%nat -> length (iv st2) = 32%nat ->
  normalize_seed (idum st1) = 1 /\ normalize_seed (idum st2) = 1 /\
  outputs n st1 = outputs n st2 /\
  exists vs : list double, outputs n st1 = Some vs /\ length vs = n.
Proof.
  intros H1 H2 L1 L2.
  assert (N1 : normalize_seed (idum st1) = 1) by now rewrite H1.
  assert (N2 : normalize_seed (idum st2) = 1) by now rewrite H2.
  assert (Hcall : ran2 st1 = ran2 st2).
  { apply ran2_seed_only; try assumption; try lia. }
  split; [exact N1|]. split; [exact N2|].
  split; [now apply outputs_first_call|].
  destruct n as [|n]; [exists []; split; reflexivity|].
  destruct (seeded_usable st1) as (st' & Heq & Hu & _);
    [rewrite H1; unfold in_long, LONG_MAX_min; lia|lia|assumption|].
  destruct (draws_usable n st' Hu) as (vs & st'' & Hd & Hlen & _ & _).
  exists (scale (iy st') :: vs). unfold outputs. cbn [draws].
  rewrite Heq, Hd. split; [reflexivity|cbn; now rewrite Hlen].
Qed.

Lemma seed_zero_as_minus_one_witness :
  outputs 5 (boot 0) = outputs 5 (boot (-1)).
Proof.
  apply (seed_zero_as_minus_one (boot 0) (boot (-1)) 5); reflexivity.
Defined.

(** C7. The first value of a stream seeded with -1 and the first value of a
    stream seeded with -2 are different. *)
Theorem seeds_minus_one_minus_two_differ (st1 st2 : state) :
  idum st1 = -1 -> idum st2 = -2 ->
  length (iv st1) = 32%nat -> length (iv st2) = 32%nat ->
  exists (v1 v2 : double) (st1' st2' : state),
    ran2 st1 = Some (v1, st1') /\ ran2 st2 = Some (v2, st2') /\
    v1 <> v2 /\ deq v1 v2 = false.
Proof.
  intros H1 H2 L1 L2.
  rewrite (ran2_init_eq st1), (ran2_init_eq st2) by (assumption || lia).
  rewrite H1, H2.
  destruct (steady (initialized (normalize_seed (-1)))) as [[v1 s1]|] eqn:E1;
    vm_compute in E1; [|discriminate].
  destruct (steady (initialized (normalize_seed (-2)))) as [[v2 s2]|] eqn:E2;
    vm_compute in E2; [|discriminate].
  injection E1 as <- <-. injection E2 as <- <-.
  eexists _, _, _, _. split; [reflexivity|]. split; [reflexivity|].
  split; [discriminate|reflexivity].
Qed.

Lemma seeds_minus_one_minus_two_differ_witness :
  exists (v1 v2 : double) (st1' st2' : state),
    ran2 (boot (-1)) = Some (v1, st1') /\ ran2 (boot (-2)) = Some (v2, st2') /\
    v1 <> v2 /\ deq v1 v2 = false.
Proof.
  apply (seeds_minus_one_minus_two_differ (boot (-1)) (boot (-2)));
    reflexivity.
Defined.

(** ** The steady-state invariant *)

Section SteadyInvariant.

Lemma mod_nonzero_below (x m : Z) :
  0 < m -> 1 <= x < 2 * m -> x <> m -> x mod m <> 0.
Proof.
  intros Hm Hx Hne H. apply Z.mod_divide in H; [|lia].
  destruct H as [q Hq].
  assert (Hc : q <= 0 \/ q = 1 \/ 2 <= q) by lia.
  destruct Hc as [Hc|[Hc|Hc]]; [nia|subst q; lia|nia].
Qed.

(** The steady-state step on a state whose recurrences sit on non-zero
    residues establishes the invariant. *)
Lemma steady_establishes_inv (st : state) :
  0 <= idum st <= LONG_MAX_min -> idum st mod IM1 <> 0 ->
  0 <= idum2 st <= LONG_MAX_min -> idum2 st mod IM2 <> 0 ->
  0 <= iy st <= IMM1 -> length (iv st) = 32%nat ->
  Forall (fun x => 1 <= x <= 2147483562) (iv st) ->
  exists st' : state,
    steady st = Some (scale (iy st'), st') /\ steady_inv st' /\
    0 <= int_of_long (iy st ÷ NDIV) <= 31 /\
    is_Some (iv st !! Z.to_nat (int_of_long (iy st ÷ NDIV))).
Proof.
  intros H1 N1 H2 N2 Hy Hlen Hiv.
  destruct (steady_eq st Hy Hlen) as (ivj & Hivj & Heq).
  destruct (selector_in_table _ Hy) as [Hj Hint].
  assert (Hivj' : 1 <= ivj <= 2147483562).
  { rewrite Forall_lookup in Hiv. exact (Hiv _ _ Hivj). }
  pose proof (advance1_nonzero _ H1 N1) as A1.
  pose proof (advance2_nonzero _ H2 N2) as A2.
  pose proof (combine_range ivj (advance2 (idum2 st))) as Hc.
  rewrite Heq. cbv zeta.
  match goal with |- exists st', Some (_, ?s) = _ /\ _ => exists s end.
  split; [reflexivity|]. rewrite Hint.
  split; [split; cbn [idum idum2 iy iv]|split; [exact Hj|now exists ivj]].
  - unfold IM1 in A1. lia.
  - unfold IM2 in A2. lia.
  - unfold IMM1, IM1, IM2 in *. lia.
  - rewrite length_insert. exact Hlen.
  - apply Forall_insert; [exact Hiv|]. unfold IM1 in A1. lia.
Qed.

Lemma ran2_steady_inv (st : state) :
  steady_inv st ->
  exists st' : state,
    ran2 st = Some (scale (iy st'), st') /\ steady_inv st' /\
    0 <= int_of_long (iy st ÷ NDIV) <= 31 /\
    is_Some (iv st !! Z.to_nat (int_of_long (iy st ÷ NDIV))).
Proof.
  intros [H1 H2 Hy Hlen Hiv]. unfold ran2.
  destruct (Z.leb_spec (idum st) 0); [lia|].
  apply steady_establishes_inv.
  - unfold LONG_MAX_min. lia.
  - unfold IM1. rewrite Z.mod_small; lia.
  - unfold LONG_MAX_min. lia.
  - unfold IM2. rewrite Z.mod_small; lia.
  - unfold IMM1, IM1. lia.
  - exact Hlen.
  - exact Hiv.
Qed.

Lemma reaches_steady_inv (st st' : state) :
  steady_inv st -> reaches st st' -> steady_inv st'.
Proof.
  intros Hi Hr. induction Hr as [|st' v st'' Hr IH Hcall]; [exact Hi|].
  destruct (ran2_steady_inv st' IH) as (st2 & Heq & Hi2 & _).
  rewrite Heq in Hcall. now inversion Hcall; subst.
Qed.

(** The first call with a seed [<= 0] whose magnitude is a non-zero residue
    of both moduli establishes the invariant. *)
Lemma seeded_steady_inv (st : state) :
  - LONG_MAX_min <= idum st <= 0 ->
  idum st <> - IM1 -> idum st <> - IM2 -> length (iv st) = 32%nat ->
  exists st' : state,
    ran2 st = Some (scale (iy st'), st') /\ steady_inv st'.
Proof.
  intros Hs N1 N2 Hlen.
  rewrite ran2_init_eq by (lia || assumption).
  assert (Hx : 1 <= normalize_seed (idum st) <= LONG_MAX_min).
  { apply normalize_seed_range; [unfold in_long, LONG_MAX_min in *; lia|lia]. }
  assert (Hx1 : normalize_seed (idum st) <> IM1 /\
                normalize_seed (idum st) <> IM2).
  { unfold normalize_seed. destruct (Z.ltb_spec (- idum st) 1);
      unfold IM1, IM2 in *; lia. }
  set (x0 := normalize_seed (idum st)) in *. clearbody x0.
  assert (M1 : x0 mod IM1 <> 0).
  { apply mod_nonzero_below; unfold IM1, LONG_MAX_min in *; lia. }
  assert (M2 : x0 mod IM2 <> 0).
  { apply mod_nonzero_below; unfold IM2, LONG_MAX_min in *; lia. }
  assert (Hw : forall n, 1 <= warmup x0 (S n) <= 2147483562).
  { intros n. pose proof (warmup_nonzero x0 n ltac:(lia) M1) as H.
    unfold IM1 in H. lia. }
  destruct (steady_establishes_inv (initialized x0))
    as (st' & Heq & Hi & _); cbn [initialized idum idum2 iy iv].
  - pose proof (Hw 39%nat). unfold LONG_MAX_min. lia.
  - pose proof (Hw 39%nat). rewrite Z.mod_small; unfold IM1; lia.
  - lia.
  - exact M2.
  - pose proof (Hw 39%nat). unfold IMM1, IM1. lia.
  - reflexivity.
  - apply warm_table_Forall. exact Hw.
  - exists st'. split; assumption.
Qed.

End SteadyInvariant.

(** C10 (as amended). After a first call with a seed [s], [-2147483647 <= s
    <= 0], other than [-2147483563] and [-2147483399], every state reached by
    further calls has its primary state in [1, 2147483562], its secondary
    state in [1, 2147483398] and its selector [iy] in [1, 2147483562]; the
    table index [j = iy/NDIV] of the next call is in [0, 31], the access is
    inside the table and the call returns. *)
Theorem steady_state_invariant (st0 st1 st : state) (v : double) :
  - 2147483647 <= idum st0 <= 0 ->
  idum st0 <> - 2147483563 -> idum st0 <> - 2147483399 ->
  length (iv st0) = 32%nat ->
  ran2 st0 = Some (v, st1) -> reaches st1 st ->
  steady_inv st /\
  0 <= int_of_long (iy st ÷ NDIV) <= 31 /\
  is_Some (iv st !! Z.to_nat (int_of_long (iy st ÷ NDIV))) /\
  exists (v' : double) (st' : state), ran2 st = Some (v', st') /\ steady_inv st'.
Proof.
  intros Hs N1 N2 Hlen Hcall Hr.
  destruct (seeded_steady_inv st0) as (st1' & Heq & Hi); try assumption.
  rewrite Heq in Hcall. inversion Hcall; subst. clear Hcall.
  pose proof (reaches_steady_inv _ _ Hi Hr) as Hst.
  destruct (ran2_steady_inv st Hst) as (st' & Heq' & Hi' & Hj & Hsome).
  split; [exact Hst|]. split; [exact Hj|]. split; [exact Hsome|].
  exists (scale (iy st')), st'. split; assumption.
Qed.

Lemma steady_state_invariant_witness :
  exists st1 : state,
    ran2 (boot (-1)) = Some (scale (iy st1), st1) /\
    steady_inv st1 /\ 0 <= int_of_long (iy st1 ÷ NDIV) <= 31.
Proof.
  destruct (ran2 (boot (-1))) as [[v st1]|] eqn:E; [|vm_compute in E; discriminate].
  assert (Hv : v = scale (iy st1)).
  { vm_compute in E. injection E as <- <-. vm_compute. reflexivity. }
  exists st1. split; [now rewrite Hv|].
  destruct (steady_state_invariant (boot (-1)) st1 st1 v) as (Hi & Hj & _);
    [cbn; lia|cbn; lia|cbn; lia|reflexivity|exact E|apply reaches_refl|].
  split; assumption.
Defined.

(** C10 as stated, for every non-positive seed, fails: seeded with
    -2147483399 the secondary state is 0 after the first call and stays 0. *)
Lemma steady_state_invariant_counterexample :
  exists (v : double) (st1 st2 : state),
    ran2 (boot (- 2147483399)) = Some (v, st1) /\ reaches st1 st2 /\
    idum2 st1 = 0 /\ idum2 st2 = 0 /\ ~ steady_inv st1 /\ ~ steady_inv st2.
Proof.
  destruct (ran2 (boot (- 2147483399))) as [[v st1]|] eqn:E1;
    vm_compute in E1; [|discriminate].
  destruct (ran2 st1) as [[v2 st2]|] eqn:E2;
    injection E1 as <- <-; vm_compute in E2; [|discriminate].
  eexists _, _, st2. split; [reflexivity|].
  split; [eapply reaches_step; [apply reaches_refl|exact E2]|].
  injection E2 as <- <-.
  repeat split; try reflexivity; intros [_ H _ _ _]; cbn in H; lia.
Qed.

(** ** Seeds of a 64-bit [long] *)

Section WideSeeds.

Lemma quot_rem_signed (x q : Z) :
  0 < q ->
  exists r, x = q * (x ÷ q) + r /\
            (0 <= x -> 0 <= r < q) /\ (x <= 0 -> - q < r <= 0).
Proof.
  intros Hq. exists (Z.rem x q). split; [apply Z.quot_rem'|].
  split; intros Hx; [apply Z.rem_bound_pos|apply Z.rem_bound_pos_neg]; lia.
Qed.

(** Outside the range of the modulus one update shrinks the magnitude of the
    state by a factor of four at least. *)
Lemma advance1_contract (B x : Z) :
  2147483648 <= B -> - (4 * B) <= x <= 4 * B -> - B <= advance1 x <= B.
Proof.
  intros HB Hx. unfold advance1.
  destruct (quot_rem_signed x IQ1) as (r & Hr & Hp & Hn); [reflexivity|].
  set (k := x ÷ IQ1) in *. clearbody k.
  unfold IA1, IQ1, IR1, IM1 in *.
  destruct (Z.ltb_spec (40014 * (x - k * 53668) - k * 12211) 0);
    destruct (Z_le_gt_dec 0 x); lia.
Qed.

Lemma advance1_small (x : Z) :
  - 2147483648 <= x <= 2147483648 -> 0 <= advance1 x <= IM1 - 1.
Proof.
  intros Hx. unfold advance1.
  destruct (quot_rem_signed x IQ1) as (r & Hr & Hp & Hn); [reflexivity|].
  set (k := x ÷ IQ1) in *. clearbody k.
  unfold IA1, IQ1, IR1, IM1 in *.
  destruct (Z.ltb_spec (40014 * (x - k * 53668) - k * 12211) 0);
    destruct (Z_le_gt_dec 0 x); lia.
Qed.

Lemma warmup_contract (n : nat) : forall B x0 : Z,
  2147483648 <= B ->
  - (4 ^ Z.of_nat n * B) <= x0 <= 4 ^ Z.of_nat n * B ->
  - B <= warmup x0 n <= B.
Proof.
  induction n as [|n IH]; intros B x0 HB Hx.
  - change (4 ^ Z.of_nat 0) with 1 in Hx. change (warmup x0 0) with x0. lia.
  - rewrite Nat2Z.inj_succ, Z.pow_succ_r in Hx by lia.
    pose proof (Z.pow_pos_nonneg 4 (Z.of_nat n) eq_refl (Nat2Z.is_nonneg n)) as Hp.
    set (P := 4 ^ Z.of_nat n) in *. clearbody P.
    rewrite warmup_S. apply IH; [exact HB|].
    apply advance1_contract; nia.
Qed.

(** From the 17th term on, the warm-up of a 64-bit seed magnitude is a
    residue of the modulus. *)
Lemma warmup_wide (x0 : Z) (n : nat) :
  - 2 ^ 63 <= x0 <= 2 ^ 63 -> 0 <= warmup x0 (17 + n) <= IM1 - 1.
Proof.
  intros Hx.
  assert (H16 : - 2147483648 <= warmup x0 16 <= 2147483648).
  { pose proof (warmup_contract 16 2147483648 x0 ltac:(lia)) as H.
    change (4 ^ Z.of_nat 16 * 2147483648) with (2 ^ 63) in H.
    specialize (H Hx). lia. }
  induction n as [|n IH].
  - replace (17 + 0)%nat with (S 16) by reflexivity. rewrite warmup_succ.
    apply advance1_small, H16.
  - replace (17 + S n)%nat with (S (17 + n)) by lia. rewrite warmup_succ.
    apply advance1_range. unfold IM1, LONG_MAX_min in *. lia.
Qed.

Lemma warm_table_length (x0 : Z) : length (warm_table x0) = 32%nat.
Proof. reflexivity. Qed.

Lemma first_call_returns (seed : Z) :
  - 2 ^ 63 <= seed <= 2 ^ 63 ->
  exists (v : double) (st' : state), ran2 (boot seed) = Some (v, st').
Proof.
  intros Hs. destruct (Z_le_gt_dec seed 0) as [Hle|Hgt].
  - rewrite ran2_init_eq by (exact Hle || reflexivity).
    cbn [boot idum].
    assert (Hx : - 2 ^ 63 <= normalize_seed seed <= 2 ^ 63).
    { unfold normalize_seed. destruct (Z.ltb_spec (- seed) 1); lia. }
    destruct (steady_eq (initialized (normalize_seed seed)))
      as (ivj & _ & Heq).
    + cbn [initialized iy].
      pose proof (warmup_wide _ 23 Hx) as H.
      change (17 + 23)%nat with 40%nat in H. unfold IMM1. exact H.
    + apply warm_table_length.
    + rewrite Heq. cbv zeta. eexists _, _. reflexivity.
  - unfold ran2. destruct (Z.leb_spec (idum (boot seed)) 0) as [H|H];
      [cbn [boot idum] in H; lia|].
    destruct (steady_eq (boot seed)) as (ivj & _ & Heq).
    + cbn [boot iy]. unfold IMM1, IM1. lia.
    + reflexivity.
    + rewrite Heq. cbv zeta. eexists _, _. reflexivity.
Qed.

End WideSeeds.

(** C8 (as amended). The first call returns a value for every seed of a
    64-bit [long]; a seed [<= 0] is replaced by its magnitude (1 for 0) and
    the generator initialised from it; a positive seed is accepted as it is:
    the initialisation does not run and the steady-state step works on the
    seed and on the statics it finds. *)
Theorem first_call_total (seed : Z) :
  in_long64 seed ->
  (exists (v : double) (st' : state), ran2 (boot seed) = Some (v, st')) /\
  (seed <= 0 ->
   0 < seed_magnitude seed /\
   ran2 (boot seed) = steady (initialized (seed_magnitude seed))) /\
  (0 < seed -> ran2 (boot seed) = steady (boot seed)).
Proof.
  intros Hs. split; [|split].
  - apply first_call_returns. unfold in_long64 in Hs. lia.
  - intros Hle. split.
    + unfold seed_magnitude. destruct (Z.eqb_spec (Z.abs seed) 0); lia.
    + rewrite ran2_init_eq by (exact Hle || reflexivity).
      cbn [boot idum]. now rewrite normalize_seed_magnitude.
  - intros Hpos. unfold ran2. cbn [boot idum].
    destruct (Z.leb_spec seed 0); [lia|reflexivity].
Qed.

Lemma first_call_total_witness :
  (exists (v : double) (st' : state), ran2 (boot 0) = Some (v, st')) /\
  ran2 (boot 0) = steady (initialized (seed_magnitude 0)) /\
  ran2 (boot 5) = steady (boot 5).
Proof.
  split; [apply (first_call_total 0); unfold in_long64; lia|].
  split.
  - apply (first_call_total 0); [unfold in_long64|]; lia.
  - apply (first_call_total 5); [unfold in_long64|]; lia.
Defined.

(** C8 as stated fails for positive seeds: they are not normalised.  With
    seed 1 the initialisation block is skipped, the table is not loaded, and
    the value returned differs from the one for seed 0, which is normalised
    to the same magnitude 1. *)
Lemma positive_seed_counterexample :
  seed_magnitude 1 = seed_magnitude 0 /\
  ran2 (boot 1) = steady (boot 1) /\
  ran2 (boot 1) <> steady (initialized (seed_magnitude 1)) /\
  outputs 1 (boot 1) <> outputs 1 (boot 0) /\
  exists (v : double) (st' : state),
    ran2 (boot 1) = Some (v, st') /\ idum2 st' = advance2 123456789 /\
    iv st' = <[0%nat := advance1 1]> (replicate 32 0).
Proof.
  split; [reflexivity|]. split; [reflexivity|].
  split; [vm_compute; discriminate|]. split; [vm_compute; discriminate|].
  destruct (ran2 (boot 1)) as [[v st']|] eqn:E; vm_compute in E; [|discriminate].
  injection E as <- <-. eexists _, _. split; [reflexivity|].
  split; vm_compute; reflexivity.
Qed.

(** ** The start-up checks of [problem] *)

Module Problem.

(** The diagnostic a run ends with when it is fatal. *)
Inductive diagnostic : Type :=
  | AthError (msg : string)
  | MissingParameter (block name : string).

(** What the host framework hands to [problem]: the sizes of the grid, the
    parsed input file, and which files [fopen] can open for reading. *)
Record host : Type := mkHost {
  Nx1 : Z;
  Nx2 : Z;
  par_d : list (string * string * double);
  par_i : list (string * string * Z);
  readable : string -> bool
}.

Fixpoint par_lookup {A : Type} (tbl : list (string * string * A))
    (block name : string) : option A :=
  match tbl with
  | [] => None
  | (b, n, v) :: tbl =>
      if String.eqb b block && String.eqb n name then Some v
      else par_lookup tbl block name
  end.

(** A statement either ends the process with a diagnostic or goes on. *)
Inductive step (A : Type) : Type :=
  | Exit (d : diagnostic)
  | Next (a : A).

Arguments Exit {A} d.
Arguments Next {A} a.

(** The literals [1.0e-3] and [4.7965], correctly rounded. *)
Definition d_1e_3 : double := ddiv (double_of_long 1) (double_of_long 1000).
Definition d_4_7965 : double :=
  ddiv (double_of_long 47965) (double_of_long 10000).

Section Run.

(** The field arrays of the grid ([U], [B1i], [B2i], [B3i]). *)
Context {fields : Type}.

(** What [problem] writes: the global [Omega] and the fields of the grid. *)
Record world : Type := mkWorld { Omega : double; grid : fields }.

Definition M (A : Type) : Type := world -> step A * world.

Definition ret {A : Type} (a : A) : M A := fun w => (Next a, w).

Definition bind {A B : Type} (c : M A) (k : A -> M B) : M B :=
  fun w =>
    match c w with
    | (Exit d, w') => (Exit d, w')
    | (Next a, w') => k a w'
    end.

Notation "x <- c ;; k" := (bind c (fun x => k))
  (at level 100, c at next level, right associativity).
Notation "c ;;; k" := (bind c (fun _ => k))
  (at level 100, right associativity).

Definition when (b : bool) (c : M unit) : M unit := if b then c else ret tt.

(** Modelled from the spec: [ath_error], of the host framework, prints its
    diagnostic and terminates the process; nothing after the call runs. *)
Definition ath_error {A : Type} (msg : string) : M A :=
  fun w => (Exit (AthError msg), w).

(** Modelled from the spec: [par_getd], of the host framework, returns the
    value of a key of the input file and is fatal when the key is missing. *)
Definition par_getd (h : host) (block name : string) : M double :=
  fun w =>
    match par_lookup (par_d h) block name with
    | Some v => (Next v, w)
    | None => (Exit (MissingParameter block name), w)
    end.

(** Modelled from the spec: [par_getd_def] and [par_geti_def], of the host
    framework, return the given default when the key is missing. *)
Definition par_getd_def (h : host) (block name : string) (dflt : double) :
    M double :=
  ret (default dflt (par_lookup (par_d h) block name)).

Definition par_geti_def (h : host) (block name : string) (dflt : Z) : M Z :=
  ret (default dflt (par_lookup (par_i h) block name)).

(** [fopen(name,"r")]: whether a stream was returned. *)
Definition fopen (h : host) (name : string) : M bool := ret (readable h name).

Definition set_Omega (v : double) : M unit :=
  fun w => (Next tt, {| Omega := v; grid := grid w |}).

(** The loops over the cells, which compute and store the initial values. *)
Variable initial_conditions : host -> world -> fields.

Definition commit_fields (h : host) : M unit :=
  fun w => (Next tt, {| Omega := Omega w; grid := initial_conditions h w |}).

(** [problem], up to the loops over the cells; the messages are those of
    the source without their final newline. *)
Definition problem (h : host) : M unit :=
  when (Nx2 h =? 1)
    (ath_error "[problem]: HGB only works on a 2D or 3D grid") ;;;
  omega <- par_getd_def h "problem" "omega" d_1e_3 ;;
  set_Omega omega ;;;
  amp <- par_getd h "problem" "amp" ;;
  beta <- par_getd h "problem" "beta" ;;
  ifield <- par_geti_def h "problem" "ifield" 1 ;;
  ipert <- par_geti_def h "problem" "ipert" 1 ;;
  xmin <- par_getd h "grid" "x1min" ;;
  xmax <- par_getd h "grid" "x1max" ;;
  xmin <- par_getd h "grid" "x2min" ;;
  xmax <- par_getd h "grid" "x2max" ;;
  xmin <- par_getd h "grid" "x3min" ;;
  xmax <- par_getd h "grid" "x3max" ;;
  nwx <- par_geti_def h "problem" "nwx" 1 ;;
  nwy <- par_geti_def h "problem" "nwy" 1 ;;
  nwz <- par_geti_def h "problem" "nwz" 1 ;;
  when (ipert =? 4)
    (when (Nx1 h =? 160)
       (fp <- fopen h "Data-160-FPwave.dat" ;;
        when (negb fp) (ath_error "Error opening Data-160-FPwave.dat")) ;;;
     when (Nx1 h =? 40)
       (fp <- fopen h "Data-40-FPwave.dat" ;;
        when (negb fp) (ath_error "Error opening Data-40-FPwave.dat")) ;;;
     xmin <- par_getd h "grid" "x1min" ;;
     when (negb (deq xmin (dopp d_4_7965)))
       (ath_error "[hgb]: iprob=4 requires xmin=-4.7965") ;;;
     xmax <- par_getd h "grid" "x1max" ;;
     when (negb (deq xmax d_4_7965))
       (ath_error "[hgb]: iprob=4 requires xmax=4.7965")) ;;;
  commit_fields h.

End Run.

Arguments world fields : clear implicits.
Arguments M fields A : clear implicits.

(** The perturbation mode [ipert] the input file selects. *)
Definition ipert_of (h : host) : Z :=
  default 1 (par_lookup (par_i h) "problem" "ipert").

(** The keys [problem] reads with [par_getd] are in the input file. *)
Definition required_present (h : host) : Prop :=
  Forall (fun bn => is_Some (par_lookup (par_d h) bn.1 bn.2))
    [("problem", "amp"); ("problem", "beta"); ("grid", "x1min");
     ("grid", "x1max"); ("grid", "x2min"); ("grid", "x2max");
     ("grid", "x3min"); ("grid", "x3max")]%string.

(** The data file of the density-wave mode for this grid can be opened. *)
Definition data_file_readable (h : host) : Prop :=
  (Nx1 h = 160 -> readable h "Data-160-FPwave.dat" = true) /\
  (Nx1 h = 40 -> readable h "Data-40-FPwave.dat" = true).

End Problem.

Import Problem.

(** A run of the density-wave mode on a 160-cell grid with the required
    bounds, and variations of it. *)
Definition fp_wave_input (x1min x1max : double) : list (string * string * double) :=
  [("problem", "amp", d_one); ("problem", "beta", d_one);
   ("grid", "x1min", x1min); ("grid", "x1max", x1max);
   ("grid", "x2min", d_zero); ("grid", "x2max", d_one);
   ("grid", "x3min", d_zero); ("grid", "x3max", d_one)]%string.

Definition fp_wave_host (nx2 : Z) (x1min x1max : double) (files : bool) : host :=
  {| Nx1 := 160; Nx2 := nx2;
     par_d := fp_wave_input x1min x1max;
     par_i := [("problem", "ipert", 4)]%string;
     readable := fun _ => files |}.

(** A grid of one field that records whether the loops have stored values. *)
Definition mark_written (h : host) (w : world bool) : bool := true.

Definition blank : world bool := {| Omega := d_zero; grid := false |}.

Section StartUpChecks.

Context {fields : Type}.
Variable initial_conditions : host -> world fields -> fields.

(** A statement that leaves the fields of the grid as they are. *)
Definition keeps_grid {A : Type} (c : M fields A) : Prop :=
  forall w r w', c w = (r, w') -> grid w' = grid w.

(** A statement that leaves the fields as they are whenever it is fatal. *)
Definition fatal_keeps_grid {A : Type} (c : M fields A) : Prop :=
  forall w d w', c w = (Exit d, w') -> grid w' = grid w.

Lemma keeps_grid_ret {A : Type} (a : A) : keeps_grid (ret a).
Proof. intros w r w' H. now inversion H. Qed.

Lemma keeps_grid_ath_error {A : Type} (msg : string) :
  keeps_grid (ath_error (A := A) msg).
Proof. intros w r w' H. now inversion H. Qed.

Lemma keeps_grid_par_getd (h : host) (block name : string) :
  keeps_grid (par_getd h block name).
Proof.
  intros w r w' H. unfold par_getd in H.
  destruct (par_lookup (par_d h) block name); now inversion H.
Qed.

Lemma keeps_grid_set_Omega (v : double) : keeps_grid (set_Omega v).
Proof. intros w r w' H. now inversion H. Qed.

Lemma keeps_grid_bind {A B : Type} (c : M fields A) (k : A -> M fields B) :
  keeps_grid c -> (forall a, keeps_grid (k a)) -> keeps_grid (bind c k).
Proof.
  intros Hc Hk w r w' H. unfold bind in H.
  destruct (c w) as [[d|a] w1] eqn:E.
  - inversion H; subst. exact (Hc _ _ _ E).
  - rewrite (Hk a _ _ _ H). exact (Hc _ _ _ E).
Qed.

Lemma keeps_grid_when (b : bool) (c : M fields unit) :
  keeps_grid c -> keeps_grid (when b c).
Proof. intros Hc. destruct b; [exact Hc|apply keeps_grid_ret]. Qed.

Lemma fatal_keeps_grid_bind {A B : Type} (c : M fields A) (k : A -> M fields B) :
  keeps_grid c -> (forall a, fatal_keeps_grid (k a)) ->
  fatal_keeps_grid (bind c k).
Proof.
  intros Hc Hk w d w' H. unfold bind in H.
  destruct (c w) as [[d1|a] w1] eqn:E.
  - inversion H; subst. exact (Hc _ _ _ E).
  - rewrite (Hk a _ _ _ H). exact (Hc _ _ _ E).
Qed.

Lemma fatal_keeps_grid_commit (h : host) :
  fatal_keeps_grid (commit_fields initial_conditions h).
Proof. intros w d w' H. inversion H. Qed.

Create HintDb keeps.

#[local] Hint Resolve keeps_grid_ret keeps_grid_ath_error keeps_grid_par_getd
  keeps_grid_set_Omega keeps_grid_when : keeps.

(** Whenever [problem] is fatal the fields of the grid are untouched. *)
Lemma problem_fatal_keeps_grid (h : host) :
  fatal_keeps_grid (problem initial_conditions h).
Proof.
  unfold problem, par_getd_def, par_geti_def, fopen.
  repeat (apply fatal_keeps_grid_bind; [auto with keeps|intros ?]).
  - repeat (apply keeps_grid_when || (apply keeps_grid_bind; [|intros ?]));
      auto with keeps.
  - apply fatal_keeps_grid_commit.
Qed.

Lemma bind_next {A B : Type} (c : M fields A) (k : A -> M fields B)
    (w w' : world fields) (a : A) :
  c w = (Next a, w') -> bind c k w = k a w'.
Proof. intros H. unfold bind. now rewrite H. Qed.

Lemma bind_exit {A B : Type} (c : M fields A) (k : A -> M fields B)
    (w w' : world fields) (d : diagnostic) :
  c w = (Exit d, w') -> bind c k w = (Exit d, w').
Proof. intros H. unfold bind. now rewrite H. Qed.

Lemma par_getd_next (h : host) (block name : string) (v : double)
    (w : world fields) :
  par_lookup (par_d h) block name = Some v ->
  par_getd h block name w = (Next v, w).
Proof. intros H. unfold par_getd. now rewrite H. Qed.

(** The state in which the checks of the density-wave mode start. *)
Definition after_reads (h : host) (w : world fields) : world fields :=
  {| Omega := default d_1e_3 (par_lookup (par_d h) "problem" "omega");
     grid := grid w |}.

(** The block under [if (ipert == 4)]. *)
Definition density_wave_checks (h : host) : M fields unit :=
  bind (when (Nx1 h =? 160)
          (bind (fopen h "Data-160-FPwave.dat")
             (fun fp => when (negb fp)
                (ath_error "Error opening Data-160-FPwave.dat"))))
    (fun _ =>
  bind (when (Nx1 h =? 40)
          (bind (fopen h "Data-40-FPwave.dat")
             (fun fp => when (negb fp)
                (ath_error "Error opening Data-40-FPwave.dat"))))
    (fun _ =>
  bind (par_getd h "grid" "x1min") (fun xmin =>
  bind (when (negb (deq xmin (dopp d_4_7965)))
          (ath_error "[hgb]: iprob=4 requires xmin=-4.7965")) (fun _ =>
  bind (par_getd h "grid" "x1max") (fun xmax =>
  when (negb (deq xmax d_4_7965))
    (ath_error "[hgb]: iprob=4 requires xmax=4.7965")))))).

(** With a grid of more than one cell in x2 and the required keys present,
    [problem] gets to the test of [ipert]. *)
Lemma problem_reaches_checks (h : host) (w : world fields) :
  Nx2 h <> 1 -> required_present h ->
  problem initial_conditions h w =
  bind (when (ipert_of h =? 4) (density_wave_checks h))
    (fun _ => commit_fields initial_conditions h) (after_reads h w).
Proof.
  intros Hn Hreq. unfold required_present in Hreq.
  repeat match goal with
         | H : Forall _ (_ :: _) |- _ =>
             apply Forall_cons_1 in H; destruct H as [[? ?] H]
         end.
  cbn [fst snd] in *.
  unfold problem.
  apply Z.eqb_neq in Hn. rewrite Hn.
  unfold par_getd_def, par_geti_def.
  rewrite (bind_next _ _ w w tt) by reflexivity.
  rewrite (bind_next _ _ w w _) by reflexivity.
  rewrite (bind_next _ _ w (after_reads h w) tt) by reflexivity.
  repeat (erewrite bind_next
            by first [apply par_getd_next; eassumption | reflexivity]).
  reflexivity.
Qed.

Lemma density_wave_checks_run (h : host) (w : world fields) :
  (Nx1 h = 160 -> readable h "Data-160-FPwave.dat" = false ->
   density_wave_checks h w =
   (Exit (AthError "Error opening Data-160-FPwave.dat"), w)) /\
  (Nx1 h = 40 -> readable h "Data-40-FPwave.dat" = false ->
   density_wave_checks h w =
   (Exit (AthError "Error opening Data-40-FPwave.dat"), w)) /\
  (data_file_readable h ->
   forall xmin xmax : double,
     par_lookup (par_d h) "grid" "x1min" = Some xmin ->
     par_lookup (par_d h) "grid" "x1max" = Some xmax ->
     density_wave_checks h w =
     if negb (deq xmin (dopp d_4_7965))
     then (Exit (AthError "[hgb]: iprob=4 requires xmin=-4.7965"), w)
     else if negb (deq xmax d_4_7965)
     then (Exit (AthError "[hgb]: iprob=4 requires xmax=4.7965"), w)
     else (Next tt, w)).
Proof.
  unfold density_wave_checks, bind, when, fopen, ret, ath_error, par_getd.
  split; [|split].
  - intros H160 Hr. rewrite H160, Hr. reflexivity.
  - intros H40 Hr. rewrite H40, Hr. reflexivity.
  - intros [R160 R40] xmin xmax Hmin Hmax. rewrite Hmin, Hmax.
    destruct (Z.eqb_spec (Nx1 h) 160) as [E160|E160];
      [rewrite (R160 E160)|];
      (destruct (Z.eqb_spec (Nx1 h) 40) as [E40|E40];
       [rewrite (R40 E40)|]);
      cbn [negb];
      destruct (deq xmin (dopp d_4_7965)); cbn [negb]; try reflexivity;
      destruct (deq xmax d_4_7965); reflexivity.
Qed.

End StartUpChecks.

(** C9. [problem] ends the process with a diagnostic when the grid has a
    single cell in x2, when the data file of the density-wave mode
    ([ipert = 4]) cannot be opened, and when that mode is run with [x1min]
    other than -4.7965 or [x1max] other than 4.7965; whenever it is fatal no
    field of the grid has been written.  With the checks passed the loops
    over the cells run. *)
Theorem problem_fatal_checks {fields : Type}
    (initial_conditions : host -> world fields -> fields)
    (h : host) (w : world fields) :
  (Nx2 h = 1 ->
   problem initial_conditions h w =
   (Exit (AthError "[problem]: HGB only works on a 2D or 3D grid"), w)) /\
  (Nx2 h <> 1 -> required_present h -> ipert_of h = 4 ->
   (Nx1 h = 160 -> readable h "Data-160-FPwave.dat" = false ->
    problem initial_conditions h w =
    (Exit (AthError "Error opening Data-160-FPwave.dat"), after_reads h w)) /\
   (Nx1 h = 40 -> readable h "Data-40-FPwave.dat" = false ->
    problem initial_conditions h w =
    (Exit (AthError "Error opening Data-40-FPwave.dat"), after_reads h w)) /\
   (data_file_readable h ->
    forall xmin xmax : double,
      par_lookup (par_d h) "grid" "x1min" = Some xmin ->
      par_lookup (par_d h) "grid" "x1max" = Some xmax ->
      (deq xmin (dopp d_4_7965) = false ->
       problem initial_conditions h w =
       (Exit (AthError "[hgb]: iprob=4 requires xmin=-4.7965"),
        after_reads h w)) /\
      (deq xmin (dopp d_4_7965) = true -> deq xmax d_4_7965 = false ->
       problem initial_conditions h w =
       (Exit (AthError "[hgb]: iprob=4 requires xmax=4.7965"),
        after_reads h w)) /\
      (deq xmin (dopp d_4_7965) = true -> deq xmax d_4_7965 = true ->
       problem initial_conditions h w =
       commit_fields initial_conditions h (after_reads h w)))) /\
  (forall (d : diagnostic) (w' : world fields),
     problem initial_conditions h w = (Exit d, w') -> grid w' = grid w).
Proof.
  split; [|split].
  - intros H1. unfold problem. rewrite H1. reflexivity.
  - intros Hn Hreq Hip.
    rewrite (problem_reaches_checks initial_conditions h w Hn Hreq).
    rewrite Hip. change (when (4 =? 4) ?c) with c.
    destruct (density_wave_checks_run h (after_reads h w)) as (F160 & F40 & Fb).
    split; [|split].
    + intros H160 Hr. apply bind_exit. now apply F160.
    + intros H40 Hr. apply bind_exit. now apply F40.
    + intros Hfiles xmin xmax Hmin Hmax.
      specialize (Fb Hfiles xmin xmax Hmin Hmax).
      split; [|split].
      * intros Hx. apply bind_exit. rewrite Fb, Hx. reflexivity.
      * intros Hx Hy. apply bind_exit. rewrite Fb, Hx, Hy. reflexivity.
      * intros Hx Hy. rewrite (bind_next _ _ _ (after_reads h w) tt);
          [reflexivity|]. rewrite Fb, Hx, Hy. reflexivity.
  - intros d w' H. exact (problem_fatal_keeps_grid initial_conditions h w d w' H).
Qed.

Lemma problem_fatal_checks_witness :
  problem mark_written (fp_wave_host 1 (dopp d_4_7965) d_4_7965 true) blank =
  (Exit (AthError "[problem]: HGB only works on a 2D or 3D grid"), blank) /\
  problem mark_written (fp_wave_host 3 (dopp d_4_7965) d_4_7965 false) blank =
  (Exit (AthError "Error opening Data-160-FPwave.dat"),
   after_reads (fp_wave_host 3 (dopp d_4_7965) d_4_7965 false) blank) /\
  problem mark_written (fp_wave_host 3 d_zero d_4_7965 true) blank =
  (Exit (AthError "[hgb]: iprob=4 requires xmin=-4.7965"),
   after_reads (fp_wave_host 3 d_zero d_4_7965 true) blank) /\
  problem mark_written (fp_wave_host 3 (dopp d_4_7965) d_one true) blank =
  (Exit (AthError "[hgb]: iprob=4 requires xmax=4.7965"),
   after_reads (fp_wave_host 3 (dopp d_4_7965) d_one true) blank).
Proof.
  assert (Hreq : forall n a b f, required_present (fp_wave_host n a b f)).
  { intros n a b f. unfold required_present.
    repeat (apply Forall_cons_2; [now eexists|]). apply Forall_nil_2. }
  assert (Hfiles : forall n a b, data_file_readable (fp_wave_host n a b true)).
  { intros n a b. split; reflexivity. }
  split; [|split; [|split]].
  - apply (problem_fatal_checks mark_written
             (fp_wave_host 1 (dopp d_4_7965) d_4_7965 true) blank).
    reflexivity.
  - apply (problem_fatal_checks mark_written
             (fp_wave_host 3 (dopp d_4_7965) d_4_7965 false) blank);
      [discriminate|apply Hreq|reflexivity..].
  - refine (proj1 (proj2 (proj2 (proj1 (proj2 (problem_fatal_checks mark_written
             (fp_wave_host 3 d_zero d_4_7965 true) blank))
             _ (Hreq _ _ _ _) eq_refl)) (Hfiles _ _ _) _ _ eq_refl eq_refl) _);
      [discriminate|vm_compute; reflexivity].
  - refine (proj1 (proj2 (proj2 (proj2 (proj1 (proj2 (problem_fatal_checks
             mark_written (fp_wave_host 3 (dopp d_4_7965) d_one true) blank))
             _ (Hreq _ _ _ _) eq_refl)) (Hfiles _ _ _) _ _ eq_refl eq_refl)) _ _);
      [discriminate|vm_compute; reflexivity|vm_compute; reflexivity].
Defined.

(** * Further properties of the generator *)

(** ** The recurrences as permutations of the residues *)

Section Residues.

Lemma mod_eq_diff (a x y m : Z) :
  0 < m -> (a * x) mod m = (a * y) mod m -> (a * (x - y)) mod m = 0.
Proof.
  intros Hm H.
  pose proof (Z.div_mod (a * x) m ltac:(lia)) as Hx.
  pose proof (Z.div_mod (a * y) m ltac:(lia)) as Hy.
  apply Z.mod_divide; [lia|].
  exists ((a * x) / m - (a * y) / m). rewrite H in Hx. lia.
Qed.

Lemma multiple_small (d m : Z) : 0 < m -> - m < d < m -> d mod m = 0 -> d = 0.
Proof.
  intros Hm Hd H. apply Z.mod_divide in H; [|lia]. destruct H as [q Hq].
  assert (Hc : q <= -1 \/ q = 0 \/ 1 <= q) by lia.
  destruct Hc as [Hc|[Hc|Hc]]; [nia|subst q; lia|nia].
Qed.

Lemma advance1_injective (x y : Z) :
  0 <= x <= IM1 - 1 -> 0 <= y <= IM1 - 1 -> advance1 x = advance1 y -> x = y.
Proof.
  intros Hx Hy H.
  rewrite !advance1_mod in H by (unfold IM1, LONG_MAX_min in *; lia).
  apply mod_eq_diff in H; [|reflexivity].
  apply (unit_mod_nonzero IA1 2082061899 IM1 38795) in H; [|reflexivity..].
  apply multiple_small in H; unfold IM1 in *; lia.
Qed.

Lemma advance2_injective (x y : Z) :
  0 <= x <= IM2 - 1 -> 0 <= y <= IM2 - 1 -> advance2 x = advance2 y -> x = y.
Proof.
  intros Hx Hy H.
  rewrite !advance2_mod in H by (unfold IM2, LONG_MAX_min in *; lia).
  apply mod_eq_diff in H; [|reflexivity].
  apply (unit_mod_nonzero IA2 1481316021 IM2 28069) in H; [|reflexivity..].
  apply multiple_small in H; unfold IM2 in *; lia.
Qed.

End Residues.

(** X1. Each of the two updates maps the non-zero residues of its modulus
    into themselves without ever sending two of them to the same value: on
    these residues a state never becomes 0 and never collapses onto another
    one. *)
Theorem updates_permute_residues (x y : Z) :
  (1 <= x <= 2147483562 -> 1 <= y <= 2147483562 ->
   1 <= advance1 x <= 2147483562 /\ (advance1 x = advance1 y -> x = y)) /\
  (1 <= x <= 2147483398 -> 1 <= y <= 2147483398 ->
   1 <= advance2 x <= 2147483398 /\ (advance2 x = advance2 y -> x = y)).
Proof.
  split.
  - intros Hx Hy. split.
    + pose proof (advance1_nonzero x) as H. unfold IM1, LONG_MAX_min in H.
      apply H; [lia|]. rewrite Z.mod_small; lia.
    + apply advance1_injective; unfold IM1; lia.
  - intros Hx Hy. split.
    + pose proof (advance2_nonzero x) as H. unfold IM2, LONG_MAX_min in H.
      apply H; [lia|]. rewrite Z.mod_small; lia.
    + apply advance2_injective; unfold IM2; lia.
Qed.

Lemma updates_permute_residues_witness :
  1 <= advance1 5 <= 2147483562 /\ (advance1 5 = advance1 7 -> 5 = 7).
Proof. apply (updates_permute_residues 5 7); lia. Defined.

(** ** The state along a stream *)

(** The [n]-th term of the secondary recurrence started at [x0]. *)
Definition secondary (x0 : Z) (n : nat) : Z := Nat.iter n advance2 x0.

Section Stream.

Lemma some_pair_snd {A B : Type} (a c : A) (b d : B) :
  Some (a, b) = Some (c, d) -> d = b.
Proof. intros H. now inversion H. Qed.

Lemma some_pair_fst {A B : Type} (a c : A) (b d : B) :
  Some (a, b) = Some (c, d) -> c = a.
Proof. intros H. now inversion H. Qed.

Lemma ran2_positive_eq (st : state) :
  0 < idum st -> 0 <= iy st <= IMM1 -> length (iv st) = 32%nat ->
  exists ivj : Z,
    iv st !! Z.to_nat (iy st ÷ NDIV) = Some ivj /\
    (Z.to_nat (iy st ÷ NDIV) < 32)%nat /\
    ran2 st =
    let y := ivj - advance2 (idum2 st) in
    let y := if y <? 1 then y + IMM1 else y in
    Some (scale y,
          {| idum := advance1 (idum st); idum2 := advance2 (idum2 st); iy := y;
             iv := <[Z.to_nat (iy st ÷ NDIV) := advance1 (idum st)]> (iv st) |}).
Proof.
  intros Hpos Hy Hlen. unfold ran2.
  destruct (Z.leb_spec (idum st) 0); [lia|].
  destruct (steady_eq st Hy Hlen) as (ivj & Hivj & Heq).
  destruct (selector_in_table _ Hy) as [Hj _].
  exists ivj. split; [exact Hivj|]. split; [lia|exact Heq].
Qed.

Lemma warmup_closed (x0 : Z) (n : nat) :
  0 <= x0 <= LONG_MAX_min ->
  warmup x0 (S n) = (IA1 ^ Z.of_nat (S n) * x0) mod IM1.
Proof.
  intros Hx. induction n as [|n IH].
  - rewrite warmup_succ. change (warmup x0 0) with x0.
    rewrite advance1_mod by exact Hx. reflexivity.
  - rewrite warmup_succ, IH.
    pose proof (Z.mod_pos_bound (IA1 ^ Z.of_nat (S n) * x0) IM1 eq_refl) as Hb.
    rewrite advance1_mod by (unfold IM1, LONG_MAX_min in *; lia).
    rewrite Z.mul_mod_idemp_r by discriminate.
    f_equal. rewrite (Nat2Z.inj_succ (S n)), Z.pow_succ_r by lia. ring.
Qed.

Lemma secondary_closed (x0 : Z) (n : nat) :
  0 <= x0 <= LONG_MAX_min ->
  secondary x0 (S n) = (IA2 ^ Z.of_nat (S n) * x0) mod IM2.
Proof.
  intros Hx. induction n as [|n IH].
  - change (secondary x0 1) with (advance2 x0).
    rewrite advance2_mod by exact Hx. reflexivity.
  - change (secondary x0 (S (S n))) with (advance2 (secondary x0 (S n))).
    rewrite IH.
    pose proof (Z.mod_pos_bound (IA2 ^ Z.of_nat (S n) * x0) IM2 eq_refl) as Hb.
    rewrite advance2_mod by (unfold IM2, LONG_MAX_min in *; lia).
    rewrite Z.mul_mod_idemp_r by discriminate.
    f_equal. rewrite (Nat2Z.inj_succ (S n)), Z.pow_succ_r by lia. ring.
Qed.

(** The state [k] calls after the initialisation from magnitude [x0]. *)
Record on_stream (x0 : Z) (k : nat) (st : state) : Prop := mkOnStream {
  on_usable : usable st;
  on_idum : idum st = warmup x0 (40 + k);
  on_idum2 : idum2 st = secondary x0 k
}.

Lemma on_stream_step (x0 : Z) (k : nat) (st : state) :
  0 <= x0 <= LONG_MAX_min -> x0 mod IM1 <> 0 ->
  on_stream x0 k st ->
  exists (v : double) (st' : state),
    ran2 st = Some (v, st') /\ on_stream x0 (S k) st'.
Proof.
  intros Hx Hnz [Hu Hi H2].
  destruct (ran2_usable st Hu) as (st' & Heq & Hu' & _).
  assert (Hpos : 0 < idum st).
  { rewrite Hi. replace (40 + k)%nat with (S (39 + k)) by lia.
    pose proof (warmup_nonzero x0 (39 + k) Hx Hnz). lia. }
  destruct (ran2_positive_eq st Hpos (usable_iy _ Hu) (usable_len _ Hu))
    as (ivj & _ & _ & Heq').
  pose proof Heq as Heq0.
  rewrite Heq' in Heq0. cbv zeta in Heq0. apply some_pair_snd in Heq0.
  rename Heq0 into Hst.
  exists (scale (iy st')), st'. split; [exact Heq|].
  split; [exact Hu'| |]; rewrite Hst; cbn [idum idum2].
  - rewrite Hi. replace (40 + S k)%nat with (S (40 + k)) by lia.
    now rewrite warmup_succ.
  - now rewrite H2.
Qed.

Lemma seeded_on_stream (st : state) :
  - LONG_MAX_min <= idum st <= 0 -> length (iv st) = 32%nat ->
  exists (v : double) (st' : state),
    ran2 st = Some (v, st') /\ on_stream (normalize_seed (idum st)) 1 st'.
Proof.
  intros Hs Hlen.
  assert (Hl : in_long (idum st)) by (unfold in_long; lia).
  destruct (seeded_usable st Hl ltac:(lia) Hlen) as (st' & Heq & Hu & _).
  pose proof (normalize_seed_range _ Hl ltac:(lia)) as Hx.
  pose proof Heq as Heq0.
  rewrite ran2_init_eq in Heq0 by (lia || assumption).
  set (x0 := normalize_seed (idum st)) in *.
  destruct (steady_eq (initialized x0)) as (ivj & _ & Heq').
  { cbn [initialized iy]. pose proof (warmup_range x0 39 ltac:(lia)).
    unfold IMM1. lia. }
  { reflexivity. }
  rewrite Heq' in Heq0. cbv zeta in Heq0. apply some_pair_snd in Heq0.
  rename Heq0 into Hst.
  exists (scale (iy st')), st'. split; [exact Heq|].
  split; [exact Hu| |]; rewrite Hst; cbn [idum idum2 initialized].
  - now rewrite <- warmup_succ.
  - reflexivity.
Qed.

Lemma on_stream_draws (x0 : Z) (n : nat) : forall (k : nat) (st : state),
  0 <= x0 <= LONG_MAX_min -> x0 mod IM1 <> 0 ->
  on_stream x0 k st ->
  exists (vs : list double) (st' : state),
    draws n st = Some (vs, st') /\ on_stream x0 (k + n) st'.
Proof.
  induction n as [|n IH]; intros k st Hx Hnz Hon.
  - exists [], st. split; [reflexivity|]. now replace (k + 0)%nat with k by lia.
  - destruct (on_stream_step x0 k st Hx Hnz Hon) as (v & st1 & Heq & Hon1).
    destruct (IH (S k) st1 Hx Hnz Hon1) as (vs & st' & Hd & Hon').
    exists (v :: vs), st'. cbn [draws]. rewrite Heq, Hd.
    split; [reflexivity|]. now replace (k + S n)%nat with (S k + n)%nat by lia.
Qed.

End Stream.

(** X2. After the first call with a seed [s], [-2147483647 <= s <= 0], other
    than -2147483563, and [n] further calls, the primary state is
    [40014^(41+n) * |s| mod 2147483563] and the secondary state is
    [40692^(1+n) * |s| mod 2147483399] (with 1 for [|s|] when [s = 0]): the
    shuffle and the combination never feed back into the two recurrences. *)
Theorem state_closed_form (st : state) (n : nat) :
  - 2147483647 <= idum st <= 0 -> idum st <> - 2147483563 ->
  length (iv st) = 32%nat ->
  exists (vs : list double) (st' : state),
    draws (S n) st = Some (vs, st') /\
    idum st' =
      (40014 ^ Z.of_nat (41 + n) * seed_magnitude (idum st)) mod 2147483563 /\
    idum2 st' =
      (40692 ^ Z.of_nat (1 + n) * seed_magnitude (idum st)) mod 2147483399.
Proof.
  intros Hs Hne Hlen.
  assert (Hl : in_long (idum st)) by (unfold in_long, LONG_MAX_min; lia).
  pose proof (normalize_seed_range _ Hl ltac:(lia)) as Hx.
  rewrite <- normalize_seed_magnitude by lia.
  assert (Hnz : normalize_seed (idum st) mod IM1 <> 0).
  { apply mod_nonzero_below; [reflexivity|unfold IM1, LONG_MAX_min in *; lia|].
    unfold normalize_seed. destruct (Z.ltb_spec (- idum st) 1); unfold IM1; lia. }
  destruct (seeded_on_stream st) as (v & st1 & Heq & Hon);
    [unfold LONG_MAX_min; lia|exact Hlen|].
  set (x0 := normalize_seed (idum st)) in *.
  destruct (on_stream_draws x0 n 1 st1 ltac:(lia) Hnz Hon)
    as (vs & st' & Hd & [_ Hi H2]).
  exists (v :: vs), st'. cbn [draws]. rewrite Heq, Hd.
  split; [reflexivity|]. rewrite Hi, H2. split.
  - replace (40 + (1 + n))%nat with (S (40 + n)) by lia.
    replace (41 + n)%nat with (S (40 + n)) by lia.
    apply warmup_closed. lia.
  - apply secondary_closed. lia.
Qed.

Lemma state_closed_form_witness :
  exists (vs : list double) (st' : state),
    draws 3 (boot (-1)) = Some (vs, st') /\
    idum st' = (40014 ^ 43 * 1) mod 2147483563 /\
    idum2 st' = (40692 ^ 3 * 1) mod 2147483399.
Proof.
  apply (state_closed_form (boot (-1)) 2); cbn [boot idum iv]; [lia|lia|reflexivity].
Defined.

(** ** The shuffle *)

(** X3. A call with a positive seed on a usable state (any call after the
    first of a stream) reads the slot [j = iy/NDIV] of the table, combines
    the value found there with the new secondary state into the new selector
    [((iv[j] - idum2 - 1) mod 2147483562) + 1], and refills that slot with
    the new primary state; the other 31 slots are left as they are. *)
Theorem shuffle_step (st st' : state) (v : double) :
  usable st -> 0 < idum st -> ran2 st = Some (v, st') ->
  let j := Z.to_nat (iy st ÷ NDIV) in
  (j < 32)%nat /\
  length (iv st') = 32%nat /\
  iv st' !! j = Some (idum st') /\
  (forall i : nat, i <> j -> iv st' !! i = iv st !! i) /\
  idum st' = advance1 (idum st) /\
  idum2 st' = advance2 (idum2 st) /\
  exists ivj : Z,
    iv st !! j = Some ivj /\
    iy st' = (ivj - idum2 st' - 1) mod 2147483562 + 1 /\
    v = scale (iy st').
Proof.
  intros [Hs H2 Hy Hlen Hiv] Hpos Hcall. cbv zeta.
  destruct (ran2_positive_eq st Hpos Hy Hlen) as (ivj & Hivj & Hj & Heq).
  rewrite Heq in Hcall. cbv zeta in Hcall.
  pose proof (some_pair_snd _ _ _ _ Hcall) as Hst.
  pose proof (some_pair_fst _ _ _ _ Hcall) as Hv.
  subst st' v. clear Hcall.
  assert (Hivj' : 0 <= ivj <= IMM1).
  { rewrite Forall_lookup in Hiv. exact (Hiv _ _ Hivj). }
  pose proof (advance2_range _ H2) as H2'.
  cbn [idum idum2 iy iv].
  split; [exact Hj|]. split; [now rewrite length_insert|].
  split; [apply list_lookup_insert_eq; lia|].
  split; [intros i Hi; apply list_lookup_insert_ne; lia|].
  split; [reflexivity|]. split; [reflexivity|].
  exists ivj. split; [exact Hivj|]. split; [|reflexivity].
  unfold IMM1, IM1, IM2 in *.
  destruct (Z.ltb_spec (ivj - advance2 (idum2 st)) 1) as [Hlt|Hge].
  - symmetry.
    enough ((ivj - advance2 (idum2 st) - 1) mod 2147483562
            = ivj - advance2 (idum2 st) - 1 + 2147483562) by lia.
    symmetry. apply Z.mod_unique with (q := -1); lia.
  - rewrite Z.mod_small; lia.
Qed.

Lemma shuffle_step_witness :
  exists (v : double) (st' : state),
    ran2 (boot 1) = Some (v, st') /\
    iv st' !! 0%nat = Some (idum st') /\
    iy st' = (0 - idum2 st' - 1) mod 2147483562 + 1.
Proof.
  destruct (ran2 (boot 1)) as [[v st']|] eqn:E; [|vm_compute in E; discriminate].
  exists v, st'. split; [reflexivity|].
  destruct (shuffle_step (boot 1) st' v) as (_ & _ & Hj & _ & _ & _ & ivj & Hivj & Hy & _).
  - apply boot_usable. unfold in_long, LONG_MAX_min. lia.
  - cbn [boot idum]. lia.
  - exact E.
  - split; [exact Hj|]. change (iv (boot 1) !! Z.to_nat (iy (boot 1) ÷ NDIV))
      with (Some 0) in Hivj. injection Hivj as <-. exact Hy.
Defined.

(** ** Representability of every integer of a call *)

(** Every [long] value a call computes on [st]. *)
Definition call_values (st : state) : list Z :=
  if idum st <=? 0 then seeded_call_values (idum st) else steady_values st.

Section NoOverflow.

Lemma steady_values_in_long (st : state) :
  0 <= idum st <= LONG_MAX_min -> 0 <= idum2 st <= LONG_MAX_min ->
  0 <= iy st <= IMM1 -> length (iv st) = 32%nat ->
  Forall (fun x => 0 <= x <= IMM1) (iv st) ->
  Forall in_long (steady_values st).
Proof.
  intros H1 H2 Hy Hlen Hiv. unfold steady_values.
  destruct (selector_in_table _ Hy) as [Hj _].
  destruct (lookup_lt_is_Some_2 (iv st) (Z.to_nat (iy st ÷ NDIV)))
    as [ivj Hivj]; [lia|].
  assert (Hivj' : 0 <= ivj <= IMM1).
  { rewrite Forall_lookup in Hiv. exact (Hiv _ _ Hivj). }
  rewrite nth_lookup, Hivj. change (default 0 (Some ivj)) with ivj.
  pose proof (advance2_range _ H2) as H2'.
  apply Forall_app. split; [now apply advance1_values_in_long|].
  apply Forall_app. split; [now apply advance2_values_in_long|].
  unfold in_long, IMM1, IM1, IM2, LONG_MAX_min in *.
  destruct (Z.ltb_spec (ivj - advance2 (idum2 st)) 1); cbv iota;
    repeat apply Forall_cons_2; try apply Forall_nil_2; lia.
Qed.

Lemma seeded_call_values_in_long (seed : Z) :
  in_long seed -> seed <= 0 -> Forall in_long (seeded_call_values seed).
Proof.
  intros Hs Hle. pose proof (normalize_seed_range _ Hs Hle) as Hx.
  unfold seeded_call_values. cbv zeta.
  set (x0 := normalize_seed seed) in *.
  assert (Hw : forall n, 0 <= warmup x0 n <= LONG_MAX_min).
  { intros [|n]; [change (warmup x0 0) with x0; lia|].
    pose proof (warmup_range x0 n ltac:(lia)).
    unfold IM1, LONG_MAX_min in *. lia. }
  apply Forall_cons_2; [unfold in_long; lia|].
  apply Forall_app. split.
  - apply Forall_flat_map, Forall_forall. intros n _.
    apply advance1_values_in_long, Hw.
  - apply steady_values_in_long; cbn [initialized idum idum2 iy iv].
    + apply Hw.
    + lia.
    + pose proof (warmup_range x0 39 ltac:(lia)). unfold IMM1. lia.
    + reflexivity.
    + apply warm_table_Forall. intros n.
      pose proof (warmup_range x0 n ltac:(lia)). unfold IMM1. lia.
Qed.

Lemma call_values_in_long (st : state) :
  usable st -> Forall in_long (call_values st).
Proof.
  intros [Hs H2 Hy Hlen Hiv]. unfold call_values.
  destruct (Z.leb_spec (idum st) 0) as [Hle|Hgt].
  - now apply seeded_call_values_in_long.
  - apply steady_values_in_long;
      [unfold in_long in Hs; lia|exact H2|exact Hy|exact Hlen|exact Hiv].
Qed.

End NoOverflow.

(** X4. Along a stream whose first call is made at program start with a seed
    within +-2147483647, every integer that any call computes (the negated
    seed, the 40 warm-up updates, both steady-state updates with their
    intermediate products, the table index, the difference [iv[j]-idum2] and
    the selector) lies within +-2147483647: no call overflows a [long], of
    whatever width. *)
Theorem calls_never_overflow (seed : Z) (st : state) :
  in_long seed -> reaches (boot seed) st -> Forall in_long (call_values st).
Proof.
  intros Hs Hr. apply call_values_in_long.
  exact (reaches_usable _ _ (boot_usable seed Hs) Hr).
Qed.

Lemma calls_never_overflow_witness :
  Forall in_long (call_values (boot (-2147483647))).
Proof.
  apply (calls_never_overflow (-2147483647) (boot (-2147483647))).
  - unfold in_long, LONG_MAX_min. lia.
  - apply reaches_refl.
Defined.

(** * Further properties of [problem] *)

(** ** The seed of each grid *)

(** The fields of [Grid] and [Domain] that the seed is computed from: the
    first active indices [is], [js], [ks] of the grid, its displacements
    in the domain, and the sizes [Nx1], [Nx2] of the domain. *)
Record origin : Type := mkOrigin {
  g_is : Z; g_js : Z; g_ks : Z;
  idisp : Z; jdisp : Z; kdisp : Z
}.

Record domain : Type := mkDomain { dNx1 : Z; dNx2 : Z }.

(** [ixs = pGrid->is + pGrid->idisp; jxs = ...; kxs = ...;
     iseed = -1 - (ixs + pDomain->Nx1*(jxs + pDomain->Nx2*kxs));] *)
Definition iseed (pGrid : origin) (pDomain : domain) : Z :=
  let ixs := g_is pGrid + idisp pGrid in
  let jxs := g_js pGrid + jdisp pGrid in
  let kxs := g_ks pGrid + kdisp pGrid in
  -1 - (ixs + dNx1 pDomain * (jxs + dNx2 pDomain * kxs)).

(** The [int] values computed on the way, in evaluation order. *)
Definition iseed_values (pGrid : origin) (pDomain : domain) : list Z :=
  let ixs := g_is pGrid + idisp pGrid in
  let jxs := g_js pGrid + jdisp pGrid in
  let kxs := g_ks pGrid + kdisp pGrid in
  [ixs; jxs; kxs; dNx2 pDomain * kxs; jxs + dNx2 pDomain * kxs;
   dNx1 pDomain * (jxs + dNx2 pDomain * kxs);
   ixs + dNx1 pDomain * (jxs + dNx2 pDomain * kxs); iseed pGrid pDomain].

(** The range of a 32-bit [int]. *)
Definition in_int (z : Z) : Prop := - 2 ^ 31 <= z <= 2 ^ 31 - 1.

(** A grid of the domain: its displacement in x1 and x2 is inside the domain
    and its indices are not negative. *)
Record grid_of (d : domain) (g : origin) : Prop := mkGridOf {
  go_is : 0 <= g_is g; go_js : 0 <= g_js g; go_ks : 0 <= g_ks g;
  go_idisp : 0 <= idisp g < dNx1 d;
  go_jdisp : 0 <= jdisp g < dNx2 d;
  go_kdisp : 0 <= kdisp g
}.

Section GridSeed.

Lemma radix_unique (n a b x y : Z) :
  0 <= a < n -> 0 <= b < n -> a + n * x = b + n * y -> a = b /\ x = y.
Proof.
  intros Ha Hb H.
  assert (Hc : x - y <= -1 \/ x - y = 0 \/ 1 <= x - y) by lia.
  destruct Hc as [Hc|[Hc|Hc]]; [nia|split; nia|nia].
Qed.

Lemma iseed_negative (d : domain) (g : origin) :
  grid_of d g -> iseed g d <= -1.
Proof.
  intros [H1 H2 H3 H4 H5 H6]. unfold iseed. cbv zeta.
  assert (0 <= dNx2 d * (g_ks g + kdisp g)) by nia.
  assert (0 <= dNx1 d * (g_js g + jdisp g + dNx2 d * (g_ks g + kdisp g))) by nia.
  lia.
Qed.

(** For a grid of the domain whose offset fits an [int], every [int] that
    the seed expression computes fits 32 bits: on such a grid the integers
    of the model are the values the machine computes. *)
Lemma iseed_values_in_int (d : domain) (g : origin) :
  grid_of d g ->
  g_is g + idisp g + dNx1 d * (g_js g + jdisp g + dNx2 d * (g_ks g + kdisp g))
    <= 2147483647 ->
  Forall in_int (iseed_values g d).
Proof.
  intros [H1 H2 H3 H4 H5 H6] Hoff.
  unfold iseed_values, iseed, in_int. cbv zeta.
  assert (A1 : 0 <= dNx2 d * (g_ks g + kdisp g)) by nia.
  assert (A2 : 0 <= g_js g + jdisp g + dNx2 d * (g_ks g + kdisp g)) by lia.
  assert (A3 : 0 <= dNx1 d * (g_js g + jdisp g + dNx2 d * (g_ks g + kdisp g)))
    by nia.
  assert (A4 : g_js g + jdisp g + dNx2 d * (g_ks g + kdisp g)
               <= dNx1 d * (g_js g + jdisp g + dNx2 d * (g_ks g + kdisp g)))
    by nia.
  assert (A5 : g_ks g + kdisp g <= dNx2 d * (g_ks g + kdisp g)) by nia.
  repeat apply Forall_cons_2; try apply Forall_nil_2; lia.
Qed.

End GridSeed.

(** X5. Take two grids of one domain whose offsets
    [ixs + Nx1*(jxs + Nx2*kxs)] fit an [int], so that the seed expression
    overflows on neither.  If they start at the same active indices [is],
    [js] and have the same seed, they have the same displacements in x1 and
    x2 and the same first index in x3: grids at different places of the
    domain get different seeds, as the comment in the source asks. *)
Theorem iseed_injective (d : domain) (g1 g2 : origin) :
  grid_of d g1 -> grid_of d g2 ->
  g_is g1 + idisp g1 +
    dNx1 d * (g_js g1 + jdisp g1 + dNx2 d * (g_ks g1 + kdisp g1))
    <= 2147483647 ->
  g_is g2 + idisp g2 +
    dNx1 d * (g_js g2 + jdisp g2 + dNx2 d * (g_ks g2 + kdisp g2))
    <= 2147483647 ->
  g_is g1 = g_is g2 -> g_js g1 = g_js g2 ->
  iseed g1 d = iseed g2 d ->
  Forall in_int (iseed_values g1 d) /\ Forall in_int (iseed_values g2 d) /\
  idisp g1 = idisp g2 /\ jdisp g1 = jdisp g2 /\
  g_ks g1 + kdisp g1 = g_ks g2 + kdisp g2.
Proof.
  intros G1 G2 O1 O2 His Hjs H.
  split; [exact (iseed_values_in_int d g1 G1 O1)|].
  split; [exact (iseed_values_in_int d g2 G2 O2)|].
  destruct G1 as [A1 A2 A3 A4 A5 A6]. destruct G2 as [B1 B2 B3 B4 B5 B6].
  unfold iseed in H. cbv zeta in H.
  destruct (radix_unique (dNx1 d) (idisp g1) (idisp g2)
              (g_js g1 + jdisp g1 + dNx2 d * (g_ks g1 + kdisp g1))
              (g_js g2 + jdisp g2 + dNx2 d * (g_ks g2 + kdisp g2)))
    as [Hi Hrest]; [lia|lia|lia|].
  destruct (radix_unique (dNx2 d) (jdisp g1) (jdisp g2)
              (g_ks g1 + kdisp g1) (g_ks g2 + kdisp g2))
    as [Hj Hk]; [lia|lia|lia|].
  repeat split; assumption.
Qed.

Lemma iseed_injective_witness :
  idisp (mkOrigin 4 4 4 8 0 0) = idisp (mkOrigin 4 4 2 8 0 2) /\
  jdisp (mkOrigin 4 4 4 8 0 0) = jdisp (mkOrigin 4 4 2 8 0 2) /\
  4 + 0 = 2 + 2.
Proof.
  refine (proj2 (proj2 (iseed_injective (mkDomain 16 16)
           (mkOrigin 4 4 4 8 0 0) (mkOrigin 4 4 2 8 0 2)
           _ _ _ _ eq_refl eq_refl eq_refl))).
  - split; cbn; lia.
  - split; cbn; lia.
  - cbn. lia.
  - cbn. lia.
Defined.

(** X6. For a grid of the domain whose seed expression stays in the range of
    [int], the seed handed to [ran2] is negative and at least -2147483647: no
    [int] operation overflows, the first call of the cell loop initialises
    the generator, and any number of draws return values strictly between 0
    and 1. *)
Theorem grid_seed_draws (d : domain) (g : origin) (n : nat) :
  grid_of d g ->
  g_is g + idisp g + dNx1 d * (g_js g + jdisp g + dNx2 d * (g_ks g + kdisp g))
    <= 2147483646 ->
  - 2147483647 <= iseed g d <= -1 /\
  Forall in_int (iseed_values g d) /\
  ran2 (boot (iseed g d)) = steady (initialize (boot (iseed g d))) /\
  exists (vs : list double) (st' : state),
    draws n (boot (iseed g d)) = Some (vs, st') /\
    length vs = n /\ Forall in_unit_interval vs.
Proof.
  intros Hg Hb. pose proof (iseed_negative d g Hg) as Hneg.
  assert (Hr : - 2147483647 <= iseed g d <= -1).
  { unfold iseed in *. cbv zeta in *. lia. }
  split; [exact Hr|]. split; [|split].
  - destruct Hg as [H1 H2 H3 H4 H5 H6].
    unfold iseed_values, iseed, in_int in *. cbv zeta in *.
    assert (0 <= dNx2 d * (g_ks g + kdisp g)) by nia.
    assert (0 <= g_js g + jdisp g + dNx2 d * (g_ks g + kdisp g)) by lia.
    assert (0 <= dNx1 d * (g_js g + jdisp g + dNx2 d * (g_ks g + kdisp g)))
      by nia.
    assert (g_js g + jdisp g + dNx2 d * (g_ks g + kdisp g)
            <= dNx1 d * (g_js g + jdisp g + dNx2 d * (g_ks g + kdisp g)))
      by nia.
    assert (g_ks g + kdisp g <= dNx2 d * (g_ks g + kdisp g)) by nia.
    repeat apply Forall_cons_2; try apply Forall_nil_2; lia.
  - unfold ran2. cbn [boot idum].
    destruct (Z.leb_spec (iseed g d) 0); [reflexivity|lia].
  - destruct (draws_usable n (boot (iseed g d))) as (vs & st' & Hd & Hl & Hv & _).
    + apply boot_usable. unfold in_long, LONG_MAX_min. lia.
    + exists vs, st'. repeat split; assumption.
Qed.

Lemma grid_seed_draws_witness :
  - 2147483647 <= iseed (mkOrigin 4 4 4 8 0 0) (mkDomain 16 16) <= -1.
Proof.
  apply (grid_seed_draws (mkDomain 16 16) (mkOrigin 4 4 4 8 0 0) 4).
  - split; cbn; lia.
  - cbn. lia.
Defined.

(** ** The runs of [problem] that are fatal *)

(** The checks of the density-wave mode fail: the mode is selected and the
    data file of the grid cannot be opened or a bound is not the required
    one. *)
Definition density_wave_fails (h : host) (xmin xmax : double) : bool :=
  (ipert_of h =? 4) &&
  ((Nx1 h =? 160) && negb (readable h "Data-160-FPwave.dat")
   || (Nx1 h =? 40) && negb (readable h "Data-40-FPwave.dat")
   || negb (deq xmin (dopp d_4_7965))
   || negb (deq xmax d_4_7965)).

(** X7. With more than one cell in x2 and the required keys in the input
    file, [problem] is fatal exactly when the density-wave mode is selected
    and its data file cannot be opened or a bound differs from -4.7965 /
    4.7965; in every other case it goes on to the loops over the cells.  In
    particular the mode runs without any data file on a grid whose [Nx1] is
    neither 160 nor 40, and the other modes never look at files or bounds. *)
Theorem problem_fatal_exactly {fields : Type}
    (initial_conditions : host -> world fields -> fields)
    (h : host) (w : world fields) (xmin xmax : double) :
  Nx2 h <> 1 -> required_present h ->
  par_lookup (par_d h) "grid" "x1min" = Some xmin ->
  par_lookup (par_d h) "grid" "x1max" = Some xmax ->
  if density_wave_fails h xmin xmax
  then exists msg : string,
         problem initial_conditions h w =
         (Exit (AthError msg), after_reads h w)
  else problem initial_conditions h w =
       commit_fields initial_conditions h (after_reads h w).
Proof.
  intros Hn Hreq Hmin Hmax.
  rewrite (problem_reaches_checks initial_conditions h w Hn Hreq).
  unfold density_wave_fails.
  destruct (ipert_of h =? 4); cbn [andb]; [|reflexivity].
  unfold density_wave_checks, bind, when, fopen, ret, ath_error, par_getd.
  rewrite Hmin, Hmax.
  destruct (Nx1 h =? 160), (readable h "Data-160-FPwave.dat"),
    (Nx1 h =? 40), (readable h "Data-40-FPwave.dat"),
    (deq xmin (dopp d_4_7965)), (deq xmax d_4_7965);
    cbn [andb orb negb]; first [reflexivity | eexists; reflexivity].
Qed.

Lemma problem_fatal_exactly_witness :
  problem mark_written
    {| Nx1 := 100; Nx2 := 3;
       par_d := fp_wave_input (dopp d_4_7965) d_4_7965;
       par_i := [("problem", "ipert", 4)]%string;
       readable := fun _ => false |} blank =
  (Next tt, {| Omega := d_1e_3; grid := true |}).
Proof.
  pose proof (problem_fatal_exactly mark_written
    {| Nx1 := 100; Nx2 := 3;
       par_d := fp_wave_input (dopp d_4_7965) d_4_7965;
       par_i := [("problem", "ipert", 4)]%string;
       readable := fun _ => false |} blank (dopp d_4_7965) d_4_7965) as H.
  apply H; try reflexivity; [discriminate|].
  unfold required_present.
  repeat (apply Forall_cons_2; [now eexists|]). apply Forall_nil_2.
Defined.

(** * The tidal potential *)

Definition dadd : double -> double -> double := SFadd prec emax.

(** The literals [1.5] and [0.5]. *)
Definition d_1_5 : double := binary_normalize prec emax 3 (-1) false.
Definition d_0_5 : double := binary_normalize prec emax 1 (-1) false.

(** [ShearingBoxPot], with [Real] the type [double]; [fargo] and
    [vertical_gravity] say whether the macros FARGO and VERTICAL_GRAVITY are
    defined, [Omega] is the global of that name. *)
Definition ShearingBoxPot (fargo vertical_gravity : bool)
    (Omega x1 x2 x3 : double) : double :=
  let phi := d_zero in
  let phi :=
    if fargo then phi
    else dsub phi (dmul (dmul (dmul (dmul d_1_5 Omega) Omega) x1) x1) in
  let phi :=
    if vertical_gravity
    then dadd phi (dmul (dmul (dmul (dmul d_0_5 Omega) Omega) x3) x3)
    else phi in
  phi.

(** The sign bit of a number, [None] for a NaN. *)
Definition sign_bit (x : double) : option bool :=
  match x with
  | S754_nan => None
  | S754_zero s | S754_infinity s | S754_finite s _ _ => Some s
  end.

Section Potential.

Lemma binary_round_aux_opp (s : bool) (m e : Z) (l : location) :
  binary_round_aux prec emax (negb s) m e l =
  SFopp (binary_round_aux prec emax s m e l).
Proof.
  unfold binary_round_aux.
  destruct (shr_fexp prec emax m e l) as [mrs' e'].
  destruct (shr_fexp prec emax _ e' loc_Exact) as [mrs'' e''].
  destruct (shr_m mrs''); [reflexivity| |reflexivity].
  destruct (e'' <=? emax - prec); reflexivity.
Qed.

Lemma binary_round_aux_sign (s s' : bool) (m e : Z) (l : location) :
  sign_bit (binary_round_aux prec emax s m e l) = Some s' -> s' = s.
Proof.
  unfold binary_round_aux.
  destruct (shr_fexp prec emax m e l) as [mrs' e'].
  destruct (shr_fexp prec emax _ e' loc_Exact) as [mrs'' e''].
  destruct (shr_m mrs''); [| |discriminate].
  - cbn. now intros [= <-].
  - destruct (e'' <=? emax - prec); cbn; now intros [= <-].
Qed.

Lemma dmul_opp_r (x y : double) : dmul x (dopp y) = dopp (dmul x y).
Proof.
  unfold dmul, dopp.
  destruct x as [sx|sx| |sx mx ex], y as [sy|sy| |sy my ey];
    cbn [SFmul SFopp]; try reflexivity;
    try (destruct sx, sy; reflexivity).
  rewrite <- negb_xorb_r. apply binary_round_aux_opp.
Qed.

Lemma dmul_opp_l (x y : double) : dmul (dopp x) y = dopp (dmul x y).
Proof.
  unfold dmul, dopp.
  destruct x as [sx|sx| |sx mx ex], y as [sy|sy| |sy my ey];
    cbn [SFmul SFopp]; try reflexivity;
    try (destruct sx, sy; reflexivity).
  rewrite <- negb_xorb_l. apply binary_round_aux_opp.
Qed.

Lemma dopp_involutive (x : double) : dopp (dopp x) = x.
Proof. destruct x as [s|s| |s m e]; cbn; now rewrite ?negb_involutive. Qed.

Lemma dmul_sign (x y : double) (s : bool) :
  sign_bit (dmul x y) = Some s ->
  exists sx sy : bool,
    sign_bit x = Some sx /\ sign_bit y = Some sy /\ s = xorb sx sy.
Proof.
  unfold dmul.
  destruct x as [sx|sx| |sx mx ex], y as [sy|sy| |sy my ey];
    cbn [SFmul sign_bit]; try discriminate;
    try (intros [= <-]; exists sx, sy; repeat split).
  intros H. apply binary_round_aux_sign in H.
  exists sx, sy. repeat split. exact H.
Qed.

(** A product [c*Omega*Omega*x*x] with [c] positive is a NaN or has a clear
    sign bit. *)
Lemma square_term_sign (c Omega x : double) (s : bool) :
  sign_bit c = Some false ->
  sign_bit (dmul (dmul (dmul (dmul c Omega) Omega) x) x) = Some s ->
  s = false.
Proof.
  intros Hc H.
  apply dmul_sign in H. destruct H as (s3 & sx & H3 & Hx & ->).
  apply dmul_sign in H3. destruct H3 as (s2 & sx' & H2 & Hx' & ->).
  apply dmul_sign in H2. destruct H2 as (s1 & so & H1 & Ho & ->).
  apply dmul_sign in H1. destruct H1 as (sc & so' & Hc' & Ho' & ->).
  rewrite Hc in Hc'. rewrite Hx in Hx'. rewrite Ho in Ho'.
  injection Hc' as <-. injection Hx' as <-. injection Ho' as <-.
  destruct so, sx; reflexivity.
Qed.

Lemma square_term_even (c Omega x : double) :
  dmul (dmul (dmul (dmul c Omega) Omega) (dopp x)) (dopp x) =
  dmul (dmul (dmul (dmul c Omega) Omega) x) x /\
  dmul (dmul (dmul (dmul c (dopp Omega)) (dopp Omega)) x) x =
  dmul (dmul (dmul (dmul c Omega) Omega) x) x.
Proof.
  split; repeat first [rewrite dmul_opp_r | rewrite dmul_opp_l];
    now rewrite !dopp_involutive.
Qed.

End Potential.

(** X8. In binary64 arithmetic, whatever the arguments (infinities and NaNs
    included): the potential is the same at [(-x1, x2, -x3)] and at
    [(x1, x2, x3)] and the same for [-Omega] and [Omega], it does not depend
    on [x2], and without vertical gravity, as the file is configured, it is
    never greater than zero. *)
Theorem ShearingBoxPot_symmetric (fargo vertical_gravity : bool)
    (Omega x1 x2 x2' x3 : double) :
  ShearingBoxPot fargo vertical_gravity Omega (dopp x1) x2 (dopp x3) =
  ShearingBoxPot fargo vertical_gravity Omega x1 x2' x3 /\
  ShearingBoxPot fargo vertical_gravity (dopp Omega) x1 x2 x3 =
  ShearingBoxPot fargo vertical_gravity Omega x1 x2' x3 /\
  dlt d_zero (ShearingBoxPot fargo false Omega x1 x2 x3) = false.
Proof.
  unfold ShearingBoxPot. cbv zeta.
  destruct (square_term_even d_1_5 Omega x1) as [E1 O1].
  destruct (square_term_even d_0_5 Omega x3) as [E3 O3].
  split; [now rewrite E1, E3|]. split; [now rewrite O1, O3|].
  destruct fargo; [reflexivity|].
  pose proof (square_term_sign d_1_5 Omega x1) as Hs.
  destruct (dmul (dmul (dmul (dmul d_1_5 Omega) Omega) x1) x1)
    as [s|s| |s m e]; cbn [sign_bit] in Hs; try reflexivity;
    rewrite (Hs s eq_refl eq_refl); reflexivity.
Qed.

(** * The safeguard on the value returned *)

Section Safeguard.

Lemma digits2_pos_upper (p : positive) :
  Z.pos p < 2 ^ Z.pos (digits2_pos p).
Proof.
  induction p as [p IH|p IH|]; cbn [digits2_pos]; [| |reflexivity];
    rewrite Pos2Z.inj_succ, Z.pow_succ_r by lia; lia.
Qed.

Lemma digits2_pos_unique (p : positive) (k : Z) :
  2 ^ (k - 1) <= Z.pos p < 2 ^ k -> Z.pos (digits2_pos p) = k.
Proof.
  intros [Hl Hu].
  pose proof (digits2_pos_bound p) as Hb.
  pose proof (digits2_pos_upper p) as Hb'.
  set (d := Z.pos (digits2_pos p)) in *.
  assert (Hk : 0 < k).
  { destruct (Z_lt_le_dec 0 k) as [H|H]; [exact H|].
    destruct (Z.eq_dec k 0) as [->|Hne]; [change (2 ^ 0) with 1 in Hu; lia|].
    rewrite Z.pow_neg_r in Hu by lia. lia. }
  assert (H1 : k - 1 < d).
  { apply (Z.pow_lt_mono_r_iff 2); lia. }
  assert (H2 : d - 1 < k).
  { apply (Z.pow_lt_mono_r_iff 2); lia. }
  lia.
Qed.

Lemma shr_1_le (mrs : shr_record) :
  0 <= shr_m mrs -> 0 <= shr_m (shr_1 mrs) /\ shr_m (shr_1 mrs) * 2 <= shr_m mrs.
Proof.
  destruct mrs as [m r s]. destruct m as [|[p|p|]|[p|p|]]; cbn; lia.
Qed.

Lemma iter_pos_shr_le (n : positive) : forall mrs : shr_record,
  0 <= shr_m mrs ->
  0 <= shr_m (SpecFloat.iter_pos shr_1 n mrs) /\
  shr_m (SpecFloat.iter_pos shr_1 n mrs) * 2 ^ Z.pos n <= shr_m mrs.
Proof.
  induction n as [n IH|n IH|]; intros mrs H; cbn [SpecFloat.iter_pos].
  - destruct (shr_1_le mrs H) as [A1 A2].
    destruct (IH _ A1) as [B1 B2]. destruct (IH _ B1) as [C1 C2].
    split; [exact C1|].
    replace (Z.pos n~1) with (Z.pos n + Z.pos n + 1) by lia.
    rewrite !Z.pow_add_r, Z.pow_1_r by lia.
    pose proof (Z.pow_pos_nonneg 2 (Z.pos n) eq_refl ltac:(lia)). nia.
  - destruct (IH _ H) as [B1 B2]. destruct (IH _ B1) as [C1 C2].
    split; [exact C1|].
    replace (Z.pos n~0) with (Z.pos n + Z.pos n) by lia.
    rewrite Z.pow_add_r by lia.
    pose proof (Z.pow_pos_nonneg 2 (Z.pos n) eq_refl ltac:(lia)). nia.
  - change (2 ^ 1) with 2. apply shr_1_le, H.
Qed.

Lemma shr_1_floor (mrs : shr_record) :
  0 <= shr_m mrs -> shr_m mrs <= 2 * shr_m (shr_1 mrs) + 1.
Proof.
  destruct mrs as [m r s]. destruct m as [|[p|p|]|[p|p|]]; cbn; lia.
Qed.

Lemma iter_pos_shr_floor (n : positive) : forall mrs : shr_record,
  0 <= shr_m mrs ->
  shr_m mrs < (shr_m (SpecFloat.iter_pos shr_1 n mrs) + 1) * 2 ^ Z.pos n.
Proof.
  induction n as [n IH|n IH|]; intros mrs H; cbn [SpecFloat.iter_pos].
  - pose proof (shr_1_floor mrs H) as A.
    destruct (shr_1_le mrs H) as [A1 _].
    pose proof (IH _ A1) as B.
    destruct (iter_pos_shr_le n _ A1) as [B1 _].
    pose proof (IH _ B1) as C.
    replace (Z.pos n~1) with (Z.pos n + Z.pos n + 1) by lia.
    rewrite !Z.pow_add_r, Z.pow_1_r by lia.
    pose proof (Z.pow_pos_nonneg 2 (Z.pos n) eq_refl ltac:(lia)). nia.
  - pose proof (IH _ H) as B.
    destruct (iter_pos_shr_le n _ H) as [B1 _].
    pose proof (IH _ B1) as C.
    replace (Z.pos n~0) with (Z.pos n + Z.pos n) by lia.
    rewrite Z.pow_add_r by lia.
    pose proof (Z.pow_pos_nonneg 2 (Z.pos n) eq_refl ltac:(lia)). nia.
  - change (2 ^ 1) with 2. pose proof (shr_1_floor mrs H). lia.
Qed.

Lemma round_nearest_even_le (m : Z) (l : location) :
  round_nearest_even m l <= m + 1.
Proof. destruct l as [|[]]; cbn; try lia. destruct (Z.even m); lia. Qed.

Lemma pos_iter_xO (k p : positive) :
  Z.pos (Pos.iter xO p k) = Z.pos p * 2 ^ Z.pos k.
Proof.
  induction k as [|k IH] using Pos.peano_ind.
  - cbn [Pos.iter]. lia.
  - rewrite Pos.iter_succ, Pos2Z.inj_succ, Z.pow_succ_r by lia.
    rewrite Pos2Z.inj_xO, IH. ring.
Qed.

(** A mantissa of 53 digits with an exponent in range is a number as it
    stands. *)
Lemma binary_round_aux_exact (s : bool) (m : positive) (e : Z) :
  Z.pos (digits2_pos m) = 53 -> -1074 <= e <= 971 ->
  binary_round_aux prec emax s (Z.pos m) e loc_Exact = S754_finite s m e.
Proof.
  intros Hd He.
  assert (Hs : shr_fexp prec emax (Z.pos m) e loc_Exact =
               ({| shr_m := Z.pos m; shr_r := false; shr_s := false |}, e)).
  { unfold shr_fexp, shr, fexp, SpecFloat.emin, prec, emax.
    cbn [Zdigits2 shr_record_of_loc]. rewrite Hd.
    replace (Z.max (53 + e - 53) (3 - 1024 - 53) - e) with 0 by lia.
    reflexivity. }
  unfold binary_round_aux. rewrite Hs.
  cbn [shr_m loc_of_shr_record round_nearest_even]. rewrite Hs.
  cbn [shr_m]. unfold emax, prec.
  destruct (Z.leb_spec e (1024 - 53)); [reflexivity|lia].
Qed.

(** The conversion of an integer below 2^53 is exact. *)
Lemma double_of_long_exact (z : Z) :
  1 <= z < 2 ^ 53 ->
  exists (m : positive) (e : Z),
    double_of_long z = S754_finite false m e /\ -52 <= e <= 0 /\
    Z.pos m = z * 2 ^ (- e) /\ 2 ^ 52 <= Z.pos m < 2 ^ 53.
Proof.
  intros Hz. destruct z as [|p|p]; [lia| |lia].
  pose proof (digits2_pos_bound p) as Hl.
  pose proof (digits2_pos_upper p) as Hu.
  assert (Hd : 1 <= Z.pos (digits2_pos p) <= 53).
  { split; [lia|].
    enough (Z.pos (digits2_pos p) - 1 < 53) by lia.
    apply (Z.pow_lt_mono_r_iff 2); lia. }
  unfold double_of_long, binary_normalize, binary_round, shl_align, fexp,
    SpecFloat.emin, prec, emax.
  set (d := Z.pos (digits2_pos p)) in *.
  replace (Z.max (d + 0 - 53) (3 - 1024 - 53)) with (d - 53) by lia.
  destruct (d - 53 - 0) as [|k|k] eqn:Ek; [| lia |].
  - assert (d = 53) by lia.
    exists p, 0. split; [|split; [lia|split; [cbn; lia|]]].
    + apply (binary_round_aux_exact false p 0); [assumption|lia].
    + replace d with 53 in * by lia. change (53 - 1) with 52 in Hl. lia.
  - assert (Hk : Z.pos k = 53 - d) by lia.
    assert (Hm : Z.pos (Pos.iter xO p k) = Z.pos p * 2 ^ (53 - d)).
    { rewrite pos_iter_xO, Hk. reflexivity. }
    assert (Hb : 2 ^ 52 <= Z.pos (Pos.iter xO p k) < 2 ^ 53).
    { rewrite Hm.
      replace (2 ^ 52) with (2 ^ (d - 1) * 2 ^ (53 - d))
        by (rewrite <- Z.pow_add_r by lia; f_equal; lia).
      replace (2 ^ 53) with (2 ^ d * 2 ^ (53 - d))
        by (rewrite <- Z.pow_add_r by lia; f_equal; lia).
      pose proof (Z.pow_pos_nonneg 2 (53 - d) eq_refl ltac:(lia)).
      split; [apply Z.mul_le_mono_nonneg_r|apply Z.mul_lt_mono_pos_r]; lia. }
    exists (Pos.iter xO p k), (d - 53).
    split; [|split; [lia|split; [|exact Hb]]].
    + apply (binary_round_aux_exact false); [|lia].
      apply digits2_pos_unique. exact Hb.
    + rewrite Hm. f_equal. f_equal. lia.
Qed.

Lemma shr_fexp_exact (m : positive) (e : Z) :
  Z.pos (digits2_pos m) = 53 -> -1074 <= e ->
  shr_fexp prec emax (Z.pos m) e loc_Exact =
  ({| shr_m := Z.pos m; shr_r := false; shr_s := false |}, e).
Proof.
  intros Hd He. unfold shr_fexp, shr, fexp, SpecFloat.emin, prec, emax.
  cbn [Zdigits2 shr_record_of_loc]. rewrite Hd.
  replace (Z.max (53 + e - 53) (3 - 1024 - 53) - e) with 0 by lia.
  reflexivity.
Qed.

Lemma shr_fexp_carry (e : Z) :
  -1074 <= e ->
  shr_fexp prec emax (2 ^ 53) e loc_Exact =
  ({| shr_m := 2 ^ 52; shr_r := false; shr_s := false |}, e + 1).
Proof.
  intros He. unfold shr_fexp, shr, fexp, SpecFloat.emin, prec, emax.
  change (Zdigits2 (2 ^ 53)) with 54.
  replace (Z.max (54 + e - 53) (3 - 1024 - 53) - e) with 1 by lia.
  reflexivity.
Qed.

(** Rounding a mantissa of more than 53 digits in the normal range: the
    result keeps 53 digits and is at most one unit above the quotient by the
    power of two shifted out, or it is the next power of two. *)
Lemma binary_round_aux_shift (M : positive) (E : Z) :
  54 <= Z.pos (digits2_pos M) ->
  -1074 <= E + Z.pos (digits2_pos M) - 53 ->
  E + Z.pos (digits2_pos M) - 52 <= 971 ->
  exists (m : positive) (e : Z),
    binary_round_aux prec emax false (Z.pos M) E loc_Exact =
    S754_finite false m e /\
    ((e = E + Z.pos (digits2_pos M) - 53 /\ 2 ^ 52 <= Z.pos m < 2 ^ 53 /\
      (Z.pos m - 1) * 2 ^ (Z.pos (digits2_pos M) - 53) <= Z.pos M /\
      Z.pos M < (Z.pos m + 1) * 2 ^ (Z.pos (digits2_pos M) - 53)) \/
     (e = E + Z.pos (digits2_pos M) - 52 /\ Z.pos m = 2 ^ 52 /\
      (2 ^ 53 - 1) * 2 ^ (Z.pos (digits2_pos M) - 53) <= Z.pos M)).
Proof.
  intros Hd Hlo Hhi.
  pose proof (digits2_pos_bound M) as Hl.
  pose proof (digits2_pos_upper M) as Hu.
  set (d := Z.pos (digits2_pos M)) in *.
  assert (Hs : exists sp : positive, Z.pos sp = d - 53 /\
            shr_fexp prec emax (Z.pos M) E loc_Exact =
            (SpecFloat.iter_pos shr_1 sp (shr_record_of_loc (Z.pos M) loc_Exact),
             E + Z.pos sp)).
  { unfold shr_fexp, shr, fexp, SpecFloat.emin, prec, emax.
    cbn [Zdigits2]. fold d.
    replace (Z.max (d + E - 53) (3 - 1024 - 53) - E) with (d - 53) by lia.
    destruct (d - 53) as [|sp|sp] eqn:Es; [lia| |lia].
    exists sp. split; reflexivity. }
  destruct Hs as (sp & Hsp & Hs).
  unfold binary_round_aux. rewrite Hs.
  set (mrs := SpecFloat.iter_pos shr_1 sp (shr_record_of_loc (Z.pos M) loc_Exact)).
  assert (Hge : 2 ^ 52 <= shr_m mrs).
  { apply iter_pos_shr_ge; [lia|]. cbn [shr_record_of_loc shr_m].
    replace (52 + Z.pos sp) with (d - 1) by lia. exact Hl. }
  destruct (iter_pos_shr_le sp (shr_record_of_loc (Z.pos M) loc_Exact))
    as [_ Hle]; [cbn; lia|]. fold mrs in Hle. cbn [shr_record_of_loc shr_m] in Hle.
  pose proof (iter_pos_shr_floor sp (shr_record_of_loc (Z.pos M) loc_Exact))
    as Hfl. fold mrs in Hfl. cbn [shr_record_of_loc shr_m] in Hfl.
  specialize (Hfl ltac:(lia)).
  pose proof (Z.pow_pos_nonneg 2 (Z.pos sp) eq_refl ltac:(lia)) as HP.
  assert (Hlt : shr_m mrs < 2 ^ 53).
  { replace d with (53 + Z.pos sp) in Hu by lia.
    rewrite Z.pow_add_r in Hu by lia.
    set (P := 2 ^ Z.pos sp) in *. nia. }
  pose proof (round_nearest_even_ge (shr_m mrs) (loc_of_shr_record mrs)) as R1.
  pose proof (round_nearest_even_le (shr_m mrs) (loc_of_shr_record mrs)) as R2.
  set (m1 := round_nearest_even (shr_m mrs) (loc_of_shr_record mrs)) in *.
  destruct (Z_lt_le_dec m1 (2 ^ 53)) as [Hno|Hcarry].
  - destruct m1 as [|p1|p1] eqn:Em1; [lia| |lia].
    rewrite shr_fexp_exact; [|apply digits2_pos_unique; lia|lia].
    cbn [shr_m]. unfold emax, prec.
    destruct (Z.leb_spec (E + Z.pos sp) (1024 - 53)); [|lia].
    exists p1, (E + Z.pos sp). split; [reflexivity|]. left.
    split; [lia|]. split; [lia|].
    rewrite <- Hsp. set (P := 2 ^ Z.pos sp) in *. split; nia.
  - assert (Hm1 : m1 = 2 ^ 53) by lia. rewrite Hm1.
    rewrite shr_fexp_carry by lia. cbn [shr_m].
    change (2 ^ 52) with (Z.pos 4503599627370496). cbv iota.
    unfold emax, prec.
    destruct (Z.leb_spec (E + Z.pos sp + 1) (1024 - 53)); [|lia].
    exists 4503599627370496%positive, (E + Z.pos sp + 1).
    split; [reflexivity|]. right. split; [lia|]. split; [reflexivity|].
    rewrite <- Hsp. set (P := 2 ^ Z.pos sp) in *. nia.
Qed.

Lemma compare_cont_lt (x y : positive) :
  Z.pos x < Z.pos y -> Pos.compare_cont Eq x y = Lt.
Proof. intros H. exact H. Qed.

Lemma compare_cont_gt (x y : positive) :
  Z.pos x < Z.pos y -> Pos.compare_cont Eq y x = Gt.
Proof.
  intros H. change (Pos.compare_cont Eq y x) with (Z.pos y ?= Z.pos x).
  apply Z.compare_gt_iff. exact H.
Qed.

(** The product [AM*iy] for a selector of the generator: a positive number
    below [RNMX]. *)
Lemma scaled_below_RNMX (z : Z) :
  1 <= z <= IMM1 ->
  exists (m : positive) (e : Z),
    dmul AM (double_of_long z) = S754_finite false m e /\
    (e < -53 \/ (e = -53 /\ Z.pos m < 9007199254740990)).
Proof.
  intros Hz. unfold IMM1, IM1 in Hz.
  destruct (double_of_long_exact z) as (mi & ei & -> & Hei & Hmi & Hbi); [lia|].
  rewrite AM_eq. unfold dmul, SFmul. cbn [xorb].
  set (M := (4503599805628423 * mi)%positive).
  assert (HM : Z.pos M = 4503599805628423 * z * 2 ^ (- ei)).
  { unfold M. rewrite Pos2Z.inj_mul, Hmi. ring. }
  pose proof (Z.pow_pos_nonneg 2 (- ei) eq_refl ltac:(lia)) as HP.
  pose proof (digits2_pos_bound M) as Hl.
  pose proof (digits2_pos_upper M) as Hu.
  assert (Hlow : 2 ^ 104 <= Z.pos M).
  { unfold M. rewrite Pos2Z.inj_mul. lia. }
  assert (Hup : Z.pos M < 2 ^ (83 - ei)).
  { rewrite HM. replace (83 - ei) with (83 + - ei) by lia.
    rewrite Z.pow_add_r by lia. set (P := 2 ^ (- ei)) in *.
    apply Z.mul_lt_mono_pos_r; lia. }
  set (d := Z.pos (digits2_pos M)) in *.
  assert (Hd1 : 104 < d) by (apply (Z.pow_lt_mono_r_iff 2); lia).
  assert (Hd2 : d - 1 < 83 - ei) by (apply (Z.pow_lt_mono_r_iff 2); lia).
  destruct (binary_round_aux_shift M (-83 + ei))
    as (m & e & Hr & Hcase); fold d; [lia..|].
  exists m, e. split; [exact Hr|]. fold d in Hcase.
  assert (Hsplit : forall c : Z, d = 83 - ei ->
            c * 2 ^ (d - 53) <= Z.pos M -> c * 2 ^ 30 <= 4503599805628423 * z).
  { intros c Hde Hc. rewrite HM in Hc.
    replace (d - 53) with (30 + - ei) in Hc by lia.
    rewrite Z.pow_add_r in Hc by lia. set (P := 2 ^ (- ei)) in *.
    apply (Z.mul_le_mono_pos_r _ _ P); [lia|]. lia. }
  destruct Hcase as [(He & Hm & Hq & _)|(He & Hm & Hq)].
  - destruct (Z_lt_le_dec e (-53)) as [Hlt|Hge]; [left; exact Hlt|].
    right. split; [lia|].
    pose proof (Hsplit _ ltac:(lia) Hq) as Hc. lia.
  - destruct (Z_lt_le_dec e (-53)) as [Hlt|Hge]; [left; exact Hlt|].
    right. split; [|lia].
    destruct (Z.eq_dec e (-53)) as [E53|E53]; [exact E53|].
    pose proof (Hsplit _ ltac:(lia) Hq) as Hc. lia.
Qed.

(** The product [AM*iy] lies within one unit in the last place of the exact
    product of the mantissa of [AM], [4503599805628423 * 2^-83], and [iy];
    both are written here in units of [2^-135]. *)
Lemma scaled_enclosure (z : Z) :
  1 <= z <= IMM1 ->
  exists (m : positive) (e : Z),
    dmul AM (double_of_long z) = S754_finite false m e /\
    -83 <= e <= -52 /\ 2 ^ 52 <= Z.pos m < 2 ^ 53 /\
    (Z.pos m - 1) * 2 ^ (e + 135) <= 4503599805628423 * z * 2 ^ 52 /\
    4503599805628423 * z * 2 ^ 52 < (Z.pos m + 1) * 2 ^ (e + 135).
Proof.
  intros Hz. unfold IMM1, IM1 in Hz.
  destruct (double_of_long_exact z) as (mi & ei & -> & Hei & Hmi & Hbi); [lia|].
  rewrite AM_eq. unfold dmul, SFmul. cbn [xorb].
  set (M := (4503599805628423 * mi)%positive).
  assert (HM : Z.pos M = 4503599805628423 * z * 2 ^ (- ei)).
  { unfold M. rewrite Pos2Z.inj_mul, Hmi. ring. }
  pose proof (Z.pow_pos_nonneg 2 (- ei) eq_refl ltac:(lia)) as HP.
  pose proof (Z.pow_pos_nonneg 2 (ei + 52) eq_refl ltac:(lia)) as HQ.
  assert (HPQ : 2 ^ (- ei) * 2 ^ (ei + 52) = 2 ^ 52).
  { rewrite <- Z.pow_add_r by lia. f_equal. lia. }
  pose proof (digits2_pos_bound M) as Hl.
  pose proof (digits2_pos_upper M) as Hu.
  assert (Hlow : 2 ^ 104 <= Z.pos M).
  { unfold M. rewrite Pos2Z.inj_mul. lia. }
  assert (Hup : Z.pos M < 2 ^ (83 - ei)).
  { rewrite HM. replace (83 - ei) with (83 + - ei) by lia.
    rewrite Z.pow_add_r by lia. set (P := 2 ^ (- ei)) in *.
    apply Z.mul_lt_mono_pos_r; lia. }
  set (d := Z.pos (digits2_pos M)) in *.
  assert (Hd1 : 104 < d) by (apply (Z.pow_lt_mono_r_iff 2); lia).
  assert (Hd2 : d - 1 < 83 - ei) by (apply (Z.pow_lt_mono_r_iff 2); lia).
  pose proof (Z.pow_pos_nonneg 2 (d - 53) eq_refl ltac:(lia)) as HD.
  assert (HMQ : 4503599805628423 * z * 2 ^ 52 = Z.pos M * 2 ^ (ei + 52)).
  { rewrite HM, <- HPQ. ring. }
  destruct (binary_round_aux_shift M (-83 + ei))
    as (m & e & Hr & Hcase); fold d; [lia..|].
  exists m, e. split; [exact Hr|]. fold d in Hcase.
  rewrite HMQ.
  destruct Hcase as [(He & Hm & Hq1 & Hq2)|(He & Hm & Hq)].
  - split; [lia|]. split; [exact Hm|].
    replace (e + 135) with (d - 53 + (ei + 52)) by lia.
    rewrite Z.pow_add_r by lia.
    set (P := 2 ^ (- ei)) in *. set (Q := 2 ^ (ei + 52)) in *.
    set (D := 2 ^ (d - 53)) in *.
    rewrite !Z.mul_assoc. split.
    + apply Z.mul_le_mono_nonneg_r; [lia|exact Hq1].
    + apply Z.mul_lt_mono_pos_r; [lia|exact Hq2].
  - split; [lia|]. split; [lia|].
    replace (e + 135) with (1 + (d - 53) + (ei + 52)) by lia.
    rewrite !Z.pow_add_r, Z.pow_1_r by lia.
    replace d with (53 + (d - 53)) in Hu at 1 by lia.
    rewrite Z.pow_add_r in Hu by lia.
    rewrite Hm.
    set (P := 2 ^ (- ei)) in *. set (Q := 2 ^ (ei + 52)) in *.
    set (D := 2 ^ (d - 53)) in *.
    split.
    + apply Z.le_trans with ((2 ^ 53 - 1) * D * Q).
      * assert (0 <= D * Q) by nia. nia.
      * apply Z.mul_le_mono_nonneg_r; [lia|exact Hq].
    + apply Z.lt_le_trans with (2 ^ 53 * D * Q).
      * apply Z.mul_lt_mono_pos_r; [lia|exact Hu].
      * assert (0 <= D * Q) by nia. nia.
Qed.

(** Two selectors in increasing order give products in increasing order:
    the exact products differ by at least [2^104] units, far more than the
    two roundings can move them. *)
Lemma scaled_ordered (y1 y2 : Z) :
  1 <= y1 -> y1 < y2 -> y2 <= IMM1 ->
  exists (m1 m2 : positive) (e1 e2 : Z),
    dmul AM (double_of_long y1) = S754_finite false m1 e1 /\
    dmul AM (double_of_long y2) = S754_finite false m2 e2 /\
    (e1 < e2 \/ (e1 = e2 /\ Z.pos m1 < Z.pos m2)).
Proof.
  intros H1 H12 H2.
  destruct (scaled_enclosure y1) as (m1 & e1 & R1 & He1 & Hm1 & Lo1 & Up1);
    [lia|].
  destruct (scaled_enclosure y2) as (m2 & e2 & R2 & He2 & Hm2 & Lo2 & Up2);
    [lia|].
  exists m1, m2, e1, e2. split; [exact R1|]. split; [exact R2|].
  assert (Hgap : 4503599805628423 * y1 * 2 ^ 52 + 2 ^ 104 <=
                 4503599805628423 * y2 * 2 ^ 52) by lia.
  pose proof (Z.pow_pos_nonneg 2 (e1 + 135) eq_refl ltac:(lia)) as HU1.
  pose proof (Z.pow_pos_nonneg 2 (e2 + 135) eq_refl ltac:(lia)) as HU2.
  assert (HB2 : 2 ^ (e2 + 135) <= 2 ^ 83)
    by (apply Z.pow_le_mono_r; lia).
  destruct (Z_lt_le_dec e1 e2) as [Hlt|Hge]; [left; exact Hlt|]. right.
  destruct (Z.eq_dec e1 e2) as [Heq|Hne].
  - split; [exact Heq|]. subst e2.
    set (U := 2 ^ (e1 + 135)) in *.
    set (V1 := 4503599805628423 * y1 * 2 ^ 52) in *.
    set (V2 := 4503599805628423 * y2 * 2 ^ 52) in *.
    change (2 ^ 83) with 9671406556917033397649408 in HB2.
    change (2 ^ 104) with 20282409603651670423947251286016 in Hgap.
    nia.
  - exfalso.
    assert (HU : 2 * 2 ^ (e2 + 135) <= 2 ^ (e1 + 135)).
    { replace (e1 + 135) with (1 + (e2 + 135) + (e1 - e2 - 1)) by lia.
      rewrite (Z.pow_add_r 2 (1 + (e2 + 135))), (Z.pow_add_r 2 1), Z.pow_1_r
        by lia.
      pose proof (Z.pow_pos_nonneg 2 (e1 - e2 - 1) eq_refl ltac:(lia)) as HC.
      set (C := 2 ^ (e1 - e2 - 1)) in *. set (U2 := 2 ^ (e2 + 135)) in *.
      rewrite <- (Z.mul_1_r (2 * U2)) at 1.
      apply Z.mul_le_mono_nonneg_l; lia. }
    set (U1 := 2 ^ (e1 + 135)) in *. set (U2 := 2 ^ (e2 + 135)) in *.
    set (V1 := 4503599805628423 * y1 * 2 ^ 52) in *.
    set (V2 := 4503599805628423 * y2 * 2 ^ 52) in *.
    change (2 ^ 83) with 9671406556917033397649408 in HB2.
    change (2 ^ 104) with 20282409603651670423947251286016 in Hgap.
    change (2 ^ 52) with 4503599627370496 in Hm1, Hm2.
    change (2 ^ 53) with 9007199254740992 in Hm1, Hm2.
    assert (A : (4503599627370496 - 1) * (2 * U2) <= V1).
    { apply Z.le_trans with ((Z.pos m1 - 1) * U1); [|exact Lo1].
      apply Z.le_trans with ((4503599627370496 - 1) * U1).
      - apply Z.mul_le_mono_nonneg_l; lia.
      - apply Z.mul_le_mono_nonneg_r; lia. }
    assert (B : V2 < 9007199254740992 * U2).
    { apply Z.lt_le_trans with ((Z.pos m2 + 1) * U2); [exact Up2|].
      apply Z.mul_le_mono_nonneg_r; lia. }
    lia.
Qed.

End Safeguard.

Lemma scaled_unclamped (y : Z) :
  1 <= y <= 2147483562 ->
  scale y = dmul AM (double_of_long y) /\
  dlt RNMX (dmul AM (double_of_long y)) = false /\
  dlt (scale y) RNMX = true /\ dlt d_zero (scale y) = true.
Proof.
  intros Hy. unfold scale.
  destruct (scaled_below_RNMX y) as (m & e & -> & He); [unfold IMM1, IM1; lia|].
  rewrite RNMX_eq. unfold dlt, SFltb, d_zero. cbn [SFcompare].
  destruct He as [He|[-> Hm]].
  - assert (H1 : (-53 ?= e) = Gt) by (apply Z.compare_gt_iff; lia).
    assert (H2 : (e ?= -53) = Lt) by (apply Z.compare_lt_iff; lia).
    rewrite H1. cbn [SFcompare]. rewrite H2. repeat split; reflexivity.
  - change (-53 ?= -53) with Eq. cbv iota.
    rewrite (compare_cont_gt _ _ Hm).
    cbn [SFcompare]. change (-53 ?= -53) with Eq. cbv iota.
    rewrite (compare_cont_lt _ _ Hm).
    repeat split; reflexivity.
Qed.

(** X9. For a selector [1 <= iy <= 2147483562], the only ones a stream with
    a seed within +-2147483647 produces, the test against [RNMX] never
    succeeds: the value returned is the product [AM*iy] itself, rounded once,
    and it is strictly below [RNMX]. *)
Theorem safeguard_never_fires (y : Z) :
  1 <= y <= 2147483562 ->
  scale y = dmul AM (double_of_long y) /\
  scale y <> RNMX /\
  dlt (scale y) RNMX = true /\ dlt d_zero (scale y) = true.
Proof.
  intros Hy. destruct (scaled_unclamped y Hy) as (E & _ & Hlt & Hpos).
  split; [exact E|]. split; [|split; assumption].
  intros Heq. rewrite Heq in Hlt. vm_compute in Hlt. discriminate.
Qed.

Lemma safeguard_never_fires_witness :
  scale 2147483562 = dmul AM (double_of_long 2147483562).
Proof. apply (safeguard_never_fires 2147483562). lia. Defined.

(** X10. Along a stream whose first call is made at program start with a
    seed within +-2147483647, no call ever returns [RNMX]: each value is the
    product [AM*iy] for the selector the call leaves, with
    [1 <= iy <= 2147483562], and is strictly between 0 and [RNMX]. *)
Theorem stream_values_unclamped (seed : Z) (st st' : state) (v : double) :
  in_long seed -> reaches (boot seed) st -> ran2 st = Some (v, st') ->
  1 <= iy st' <= 2147483562 /\
  v = dmul AM (double_of_long (iy st')) /\
  dlt d_zero v = true /\ dlt v RNMX = true /\ v <> RNMX.
Proof.
  intros Hs Hr Hcall.
  pose proof (reaches_usable _ _ (boot_usable seed Hs) Hr) as Hu.
  destruct (ran2_usable st Hu) as (st1 & Heq & Hu1 & Hy1).
  rewrite Heq in Hcall.
  pose proof (some_pair_snd _ _ _ _ Hcall) as E1.
  pose proof (some_pair_fst _ _ _ _ Hcall) as E2.
  subst st' v. clear Hcall.
  assert (Hy : 1 <= iy st1 <= 2147483562).
  { pose proof (usable_iy _ Hu1) as H. unfold IMM1, IM1 in H. lia. }
  destruct (scaled_unclamped (iy st1) Hy) as (E & _ & Hlt & Hpos).
  split; [exact Hy|]. split; [exact E|]. split; [exact Hpos|].
  split; [exact Hlt|].
  intros Heq'. rewrite Heq' in Hlt. vm_compute in Hlt. discriminate.
Qed.

Lemma stream_values_unclamped_witness :
  exists (v : double) (st' : state),
    ran2 (boot (-1)) = Some (v, st') /\ dlt v RNMX = true /\ v <> RNMX.
Proof.
  destruct (ran2 (boot (-1))) as [[v st']|] eqn:E;
    [|vm_compute in E; discriminate].
  exists v, st'. split; [reflexivity|].
  refine (proj2 (proj2 (proj2
    (stream_values_unclamped (-1) (boot (-1)) st' v _ _ E)))).
  - unfold in_long, LONG_MAX_min. lia.
  - apply reaches_refl.
Defined.

(** X11. On the selectors the generator produces the scaling keeps the
    order: comparing two values returned is the same as comparing the two
    selectors, so that different selectors never give the same deviate. *)
Theorem scale_order (y1 y2 : Z) :
  1 <= y1 <= 2147483562 -> 1 <= y2 <= 2147483562 ->
  dlt (scale y1) (scale y2) = (y1 <? y2) /\
  (scale y1 = scale y2 -> y1 = y2).
Proof.
  intros H1 H2.
  assert (Hlt : forall a b : Z, 1 <= a -> a < b -> b <= 2147483562 ->
            dlt (scale a) (scale b) = true /\
            dlt (scale b) (scale a) = false).
  { intros a b Ha Hab Hb.
    destruct (scaled_unclamped a ltac:(lia)) as (-> & _).
    destruct (scaled_unclamped b ltac:(lia)) as (-> & _).
    destruct (scaled_ordered a b Ha Hab) as (ma & mb & ea & eb & -> & -> & Ho);
      [unfold IMM1, IM1; lia|].
    unfold dlt, SFltb. cbn [SFcompare].
    destruct Ho as [He|[-> Hm]].
    - assert (C1 : (ea ?= eb) = Lt) by (apply Z.compare_lt_iff; exact He).
      assert (C2 : (eb ?= ea) = Gt) by (apply Z.compare_gt_iff; exact He).
      rewrite C1, C2. split; reflexivity.
    - rewrite Z.compare_refl. cbv iota.
      rewrite (compare_cont_lt _ _ Hm), (compare_cont_gt _ _ Hm).
      split; reflexivity. }
  assert (Hirr : forall a : Z, 1 <= a <= 2147483562 ->
            dlt (scale a) (scale a) = false).
  { intros a Ha. destruct (scaled_unclamped a Ha) as (-> & _).
    destruct (scaled_below_RNMX a) as (m & e & -> & _);
      [unfold IMM1, IM1; lia|].
    unfold dlt, SFltb. cbn [SFcompare]. rewrite Z.compare_refl. cbv iota.
    change (Pos.compare_cont Eq m m) with (Pos.compare m m).
    rewrite Pos.compare_refl. reflexivity. }
  split.
  - destruct (Z.ltb_spec y1 y2) as [L|G].
    + apply (Hlt y1 y2); lia.
    + destruct (Z.eq_dec y1 y2) as [->|Hne]; [apply Hirr; exact H2|].
      apply (Hlt y2 y1); lia.
  - intros Heq. destruct (Z.lt_trichotomy y1 y2) as [L|[E|G]]; [|exact E|].
    + destruct (Hlt y1 y2 ltac:(lia) L ltac:(lia)) as [T _].
      rewrite Heq, Hirr in T by exact H2. discriminate.
    + destruct (Hlt y2 y1 ltac:(lia) G ltac:(lia)) as [T _].
      rewrite Heq, Hirr in T by exact H2. discriminate.
Qed.

Lemma scale_order_witness :
  dlt (scale 1) (scale 2) = (1 <? 2).
Proof. apply (scale_order 1 2); lia. Defined.

(** * The history variables of the hydrodynamics *)

Module History.

(** The conserved variables of a cell, [pG->U[k][j][i]], that the functions
    below read. *)
Record Gas : Type := mkGas {
  d : double;
  M1 : double;
  M2 : double
}.

(** [expr_dV2], [hst_rho_Vx_dVy] and [hst_rho_dVy2]; [fargo] says whether
    the macro FARGO is defined, [Omega] is the global of that name, [x1] the
    first coordinate that [cc_pos] gives for the cell and [U] the cell. *)
Definition expr_dV2 (fargo : bool) (Omega x1 : double) (U : Gas) : double :=
  if fargo then ddiv (M2 U) (d U)
  else dadd (ddiv (M2 U) (d U)) (dmul (dmul d_1_5 Omega) x1).

Definition hst_rho_Vx_dVy (fargo : bool) (Omega x1 : double) (U : Gas)
    : double :=
  if fargo then dmul (M1 U) (ddiv (M2 U) (d U))
  else dmul (M1 U) (dadd (ddiv (M2 U) (d U)) (dmul (dmul d_1_5 Omega) x1)).

Definition hst_rho_dVy2 (fargo : bool) (Omega x1 : double) (U : Gas)
    : double :=
  let dVy :=
    if fargo then ddiv (M2 U) (d U)
    else dadd (ddiv (M2 U) (d U)) (dmul (dmul d_1_5 Omega) x1) in
  dmul (dmul (d U) dVy) dVy.

End History.

(** X12. The kinetic energy of the fluctuations of the velocity along y,
    [hst_rho_dVy2], has the sign of the density of the cell whenever it is a
    number: with a density that is not negative it is never below zero,
    whatever the momentum, [Omega] and the position, overflow and underflow
    included. It is the density times the square of the value that
    [expr_dV2] gives for the cell, and [hst_rho_Vx_dVy] is the momentum along
    x times that value. *)
Theorem hst_rho_dVy2_not_negative (fargo : bool) (Omega x1 : double)
    (U : History.Gas) :
  sign_bit (History.d U) = Some false ->
  dlt (History.hst_rho_dVy2 fargo Omega x1 U) d_zero = false /\
  (forall s : bool,
     sign_bit (History.hst_rho_dVy2 fargo Omega x1 U) = Some s -> s = false) /\
  History.hst_rho_dVy2 fargo Omega x1 U =
    dmul (dmul (History.d U) (History.expr_dV2 fargo Omega x1 U))
         (History.expr_dV2 fargo Omega x1 U) /\
  History.hst_rho_Vx_dVy fargo Omega x1 U =
    dmul (History.M1 U) (History.expr_dV2 fargo Omega x1 U).
Proof.
  intros Hd.
  assert (Hsq : History.hst_rho_dVy2 fargo Omega x1 U =
                dmul (dmul (History.d U) (History.expr_dV2 fargo Omega x1 U))
                     (History.expr_dV2 fargo Omega x1 U)).
  { unfold History.hst_rho_dVy2, History.expr_dV2. destruct fargo; reflexivity. }
  assert (Hsign : forall s : bool,
            sign_bit (History.hst_rho_dVy2 fargo Omega x1 U) = Some s ->
            s = false).
  { intros s Hs. rewrite Hsq in Hs.
    destruct (dmul_sign _ _ _ Hs) as (s1 & s2 & H1 & H2 & ->).
    destruct (dmul_sign _ _ _ H1) as (sd & s2' & H3 & H4 & ->).
    rewrite H2 in H4. rewrite Hd in H3.
    injection H4 as <-. injection H3 as <-.
    destruct s2; reflexivity. }
  split; [|split; [exact Hsign|split; [exact Hsq|]]].
  - destruct (History.hst_rho_dVy2 fargo Omega x1 U) as [s|s| |s m e];
      cbn [sign_bit] in Hsign; try reflexivity;
      rewrite (Hsign s eq_refl); reflexivity.
  - unfold History.hst_rho_Vx_dVy, History.expr_dV2.
    destruct fargo; reflexivity.
Qed.

Lemma hst_rho_dVy2_not_negative_witness :
  dlt (History.hst_rho_dVy2 false d_1e_3 d_4_7965
         (History.mkGas d_one (dopp d_one) (dopp d_one))) d_zero = false.
Proof.
  refine (proj1 (hst_rho_dVy2_not_negative false d_1e_3 d_4_7965
                   (History.mkGas d_one (dopp d_one) (dopp d_one)) _)).
  reflexivity.
Defined.

(** * The initialisation, for the seeds of a 64-bit [long] *)

(** Every [long] value the block under [if ( *idum <= 0)] computes: the
    negated seed, the seed stored, and the 40 updates of the warm-up. *)
Definition initialize_values (seed : Z) : list Z :=
  let x0 := normalize_seed seed in
  - seed :: x0 :: flat_map (fun n => advance1_values (warmup x0 n)) (seq 0 40).

Section InitialisationRange.

Lemma advance1_values_long64 (x : Z) :
  in_long64 x -> Forall in_long64 (advance1_values x).
Proof.
  unfold in_long64. intros Hx. unfold advance1_values, advance1. cbv zeta.
  destruct (quot_rem_signed x IQ1) as (r & Hr & Hp & Hn); [reflexivity|].
  set (k := x ÷ IQ1) in *. clearbody k.
  unfold IA1, IQ1, IR1, IM1 in *.
  destruct (Z.ltb_spec (40014 * (x - k * 53668) - k * 12211) 0);
    destruct (Z_le_gt_dec 0 x);
    repeat apply Forall_cons_2; try apply Forall_nil_2; lia.
Qed.

Lemma advance1_long64 (x : Z) : in_long64 x -> in_long64 (advance1 x).
Proof.
  intros Hx. pose proof (advance1_values_long64 x Hx) as H.
  rewrite Forall_lookup in H. apply (H 6%nat). reflexivity.
Qed.

Lemma warmup_long64 (x0 : Z) (n : nat) :
  in_long64 x0 -> in_long64 (warmup x0 n).
Proof.
  intros Hx. induction n as [|n IH]; [exact Hx|].
  rewrite warmup_succ. apply advance1_long64, IH.
Qed.

Lemma warmup_values_long64 (x0 : Z) (l : list nat) :
  in_long64 x0 ->
  Forall in_long64 (flat_map (fun n => advance1_values (warmup x0 n)) l).
Proof.
  intros Hx. induction l as [|n l IH]; [apply Forall_nil_2|].
  cbn [flat_map]. apply Forall_app. split; [|exact IH].
  apply advance1_values_long64, warmup_long64, Hx.
Qed.

End InitialisationRange.

(** X14. A call with a seed [<= 0] that a 64-bit [long] can negate (any
    but [LONG_MIN]) first replaces the seed by its magnitude (1 when the
    magnitude is 0), copies it into [idum2], runs 40 iterations of the
    primary recurrence, leaves terms 9..40 in [iv] with term [40 - j] in
    slot [j], and sets [iy] from [iv[0]]; every [long] value computed on the
    way fits 64 bits.  A call with a positive seed goes straight to the
    steady-state step. *)
Theorem initialization_policy (st : state) :
  length (iv st) = 32%nat ->
  (in_long64 (idum st) -> idum st <= 0 ->
   let x0 := seed_magnitude (idum st) in
   0 < x0 /\
   initialize st = {| idum := warmup x0 40; idum2 := x0;
                      iy := warmup x0 40; iv := warm_table x0 |} /\
   ran2 st = steady (initialize st) /\
   (forall j : nat, (j < 32)%nat ->
      warm_table x0 !! j = Some (warmup x0 (40 - j))) /\
   length (warm_table x0) = 32%nat /\
   warm_table x0 !! 0%nat = Some (warmup x0 40) /\
   Forall in_long64 (initialize_values (idum st))) /\
  (0 < idum st -> ran2 st = steady st).
Proof.
  intros Hlen. split.
  - intros Hr Hle x0. subst x0.
    split.
    { unfold seed_magnitude. destruct (Z.eqb_spec (Z.abs (idum st)) 0); lia. }
    split.
    { rewrite initialize_eq by exact Hlen. cbv zeta.
      now rewrite normalize_seed_magnitude. }
    split.
    { unfold ran2. destruct (Z.leb_spec (idum st) 0); [reflexivity|lia]. }
    split.
    { intros j Hj. unfold warm_table. rewrite list_lookup_fmap.
      rewrite lookup_seq_lt by lia. reflexivity. }
    split; [reflexivity|]. split; [reflexivity|].
    assert (Hx : in_long64 (normalize_seed (idum st))).
    { unfold in_long64, normalize_seed in *.
      destruct (Z.ltb_spec (- idum st) 1); lia. }
    unfold initialize_values. cbv zeta.
    apply Forall_cons_2; [unfold in_long64 in *; lia|].
    apply Forall_cons_2; [exact Hx|].
    apply warmup_values_long64, Hx.
  - intros Hpos. unfold ran2.
    destruct (Z.leb_spec (idum st) 0); [lia|reflexivity].
Qed.

Lemma initialization_policy_witness :
  initialize (boot (-5)) = {| idum := warmup 5 40; idum2 := 5;
                              iy := warmup 5 40; iv := warm_table 5 |} /\
  ran2 (boot 5) = steady (boot 5).
Proof.
  split.
  - refine (proj1 (proj2 (proj1 (initialization_policy (boot (-5)) eq_refl)
                            _ _))).
    + cbn [boot idum]. unfold in_long64. lia.
    + cbn [boot idum]. lia.
  - apply (proj2 (initialization_policy (boot 5) eq_refl)).
    cbn [boot idum]. lia.
Defined.
